(** * SQL guardrails and SQL batch executor of the text-to-SQL assistant

    Shallow embedding of [app/evals/guardrails.py] (the guardrail engine)
    and of [app/db/sql_query_executor.py] (validator, cleaner, batch
    executor), with the fragment of Python's [re] module those two files
    rely on, and of the caller [app/services/database_service.py] (the
    methods of [DatabaseService] that go through the batch executor).

    Text is a list of characters.  The alphabet is 7-bit ASCII: the
    character classes below are Python's for code points under 128
    (white space includes the separators 28..31, as [str.isspace] and
    [\s] do); a character above 127 belongs to no class and has no case. *)

From Stdlib Require Import List Ascii String NArith ZArith Arith Bool Lia.
From Stdlib Require Import DecimalString Sorted.
Import ListNotations.

Set Implicit Arguments.

(** ** Characters and text *)

Definition str := list ascii.

(** A Python string literal. *)
Definition lit (s : string) : str := list_ascii_of_string s.

Definition code (c : ascii) : nat := nat_of_ascii c.

Definition nl : ascii := ascii_of_nat 10.
Definition dquote : ascii := ascii_of_nat 34.

Definition chr_eqb (a b : ascii) : bool := Ascii.eqb a b.

Definition between (lo hi n : nat) : bool := (lo <=? n) && (n <=? hi).

(** [str.isspace] / [\s] on one character. *)
Definition is_space (c : ascii) : bool :=
  between 9 13 (code c) || between 28 32 (code c).

(** [\d]. *)
Definition is_digit (c : ascii) : bool := between 48 57 (code c).

Definition is_upper (c : ascii) : bool := between 65 90 (code c).
Definition is_lower (c : ascii) : bool := between 97 122 (code c).

(** [\w]. *)
Definition is_word (c : ascii) : bool :=
  is_upper c || is_lower c || is_digit c || (code c =? 95).

Definition upper_chr (c : ascii) : ascii :=
  if is_lower c then ascii_of_nat (code c - 32) else c.

Definition lower_chr (c : ascii) : ascii :=
  if is_upper c then ascii_of_nat (code c + 32) else c.

(** [str.upper]. *)
Definition upper (s : str) : str := map upper_chr s.

Fixpoint str_eqb (a b : str) : bool :=
  match a, b with
  | [], [] => true
  | x :: a', y :: b' => chr_eqb x y && str_eqb a' b'
  | _, _ => false
  end.

(** [len(s)]. *)
Definition len (s : str) : nat := List.length s.

(** [str.lstrip], [str.rstrip], [str.strip] with no argument. *)
Fixpoint lstrip (s : str) : str :=
  match s with
  | c :: s' => if is_space c then lstrip s' else s
  | [] => []
  end.

Definition rstrip (s : str) : str := rev (lstrip (rev s)).

Definition strip (s : str) : str := rstrip (lstrip s).

(** [str.split] with no argument: the maximal runs of characters that
    are not white space.  [w] is the run being read, reversed. *)
Fixpoint split_ws_aux (w : str) (s : str) : list str :=
  match s with
  | [] => match w with [] => [] | _ => [rev w] end
  | c :: s' =>
      if is_space c
      then match w with
           | [] => split_ws_aux [] s'
           | _ => rev w :: split_ws_aux [] s'
           end
      else split_ws_aux (c :: w) s'
  end.

Definition split_ws (s : str) : list str := split_ws_aux [] s.

(** [sep.join(parts)]. *)
Fixpoint join (sep : str) (parts : list str) : str :=
  match parts with
  | [] => []
  | [p] => p
  | p :: rest => p ++ sep ++ join sep rest
  end.

Fixpoint starts_with (p s : str) : bool :=
  match p, s with
  | [], _ => true
  | x :: p', y :: s' => chr_eqb x y && starts_with p' s'
  | _ :: _, [] => false
  end.

(** [s.count(sub)] for a non-empty [sub]: occurrences counted from the
    left without overlap.  [skip] is the number of characters that still
    belong to the occurrence found last. *)
Fixpoint count_sub_aux (sub : str) (skip : nat) (s : str) : nat :=
  match s with
  | [] => 0
  | _ :: s' =>
      match skip with
      | S k => count_sub_aux sub k s'
      | O => if starts_with sub s
             then S (count_sub_aux sub (len sub - 1) s')
             else count_sub_aux sub 0 s'
      end
  end.

Definition count_sub (sub s : str) : nat := count_sub_aux sub 0 s.

(** [s.count(c)] for one character. *)
Definition count_chr (c : ascii) (s : str) : nat :=
  len (filter (chr_eqb c) s).

(** [s[a:b]] for [0 <= a], [0 <= b]. *)
Definition slice (a b : nat) (s : str) : str := firstn (b - a) (skipn a s).

(** [str(n)] and [int(digits)]. *)
Definition str_of_N (n : N) : str := lit (NilEmpty.string_of_uint (N.to_uint n)).
Definition str_of_nat (n : nat) : str := str_of_N (N.of_nat n).

Definition digit_val (c : ascii) : N := N.of_nat (code c - 48).

Definition int_of_digits (s : str) : N :=
  fold_left (fun acc c => (10 * acc + digit_val c)%N) s 0%N.

(** ** Regular expressions: the fragment of Python's [re] in use

    Every quantifier of the two source files stands on a one-character
    atom, so repetition is kept on atoms. *)

Inductive citem : Type :=
| CChar (c : ascii)          (* a literal member of a class *)
| CSpace                     (* \s *)
| CDigit                     (* \d *)
| CWord.                     (* \w *)

Inductive atom : Type :=
| ALit (c : ascii)
| ADot
| ASet (neg : bool) (items : list citem).

Inductive re : Type :=
| Emp
| Chr (a : atom)
| Cat (r1 r2 : re)
| Alt (r1 r2 : re)                 (* r1|r2, r1 tried first *)
| Star (greedy : bool) (a : atom)  (* a* and a*? *)
| Bol                              (* ^ *)
| Eol                              (* $ *)
| WordB                            (* \b *)
| NotAhead (r : re)                (* (?!r) *)
| NotBehind (a : atom)             (* (?<!a) *)
| Group (n : nat) (r : re).        (* the n-th capturing group *)

(** A pattern that matches nowhere; what an unreadable pattern compiles to. *)
Definition Never : re := Chr (ASet false []).

(** *** Reading a pattern *)

Definition escape_item (c : ascii) : option citem :=
  if chr_eqb c "s" then Some CSpace
  else if chr_eqb c "d" then Some CDigit
  else if chr_eqb c "w" then Some CWord
  else if chr_eqb c "n" then Some (CChar nl)
  else if is_word c then None
  else Some (CChar c).

Definition escape_re (c : ascii) : option re :=
  if chr_eqb c "b" then Some WordB
  else match escape_item c with
       | Some (CChar x) => Some (Chr (ALit x))
       | Some i => Some (Chr (ASet false [i]))
       | None => None
       end.

(** The members of a class up to the closing bracket; a range [a-z] is
    not in the fragment and a hyphen stands for itself only next to a
    bracket. *)
Fixpoint parse_items (first : bool) (inp : str) : option (list citem * str) :=
  match inp with
  | [] => None
  | "]"%char :: rest => Some ([], rest)
  | "\"%char :: c :: rest =>
      match escape_item c, parse_items false rest with
      | Some i, Some (its, rest') => Some (i :: its, rest')
      | _, _ => None
      end
  | "-"%char :: rest =>
      match rest with
      | "]"%char :: _ =>
          match parse_items false rest with
          | Some (its, rest') => Some (CChar "-" :: its, rest')
          | None => None
          end
      | _ => if first
             then match parse_items false rest with
                  | Some (its, rest') => Some (CChar "-" :: its, rest')
                  | None => None
                  end
             else None
      end
  | c :: rest =>
      match parse_items false rest with
      | Some (its, rest') => Some (CChar c :: its, rest')
      | None => None
      end
  end.

Definition atom_of (r : re) : option atom :=
  match r with Chr a => Some a | _ => None end.

(** The quantifier, if any, that follows an atom. *)
Definition quantify (r : re) (inp : str) : option (re * str) :=
  let on_atom (f : atom -> re) (rest : str) :=
    match atom_of r with Some a => Some (f a, rest) | None => None end in
  match inp with
  | "*"%char :: "?"%char :: rest => on_atom (fun a => Star false a) rest
  | "*"%char :: rest => on_atom (fun a => Star true a) rest
  | "+"%char :: "?"%char :: rest =>
      on_atom (fun a => Cat (Chr a) (Star false a)) rest
  | "+"%char :: rest => on_atom (fun a => Cat (Chr a) (Star true a)) rest
  | "?"%char :: "?"%char :: rest => on_atom (fun a => Alt Emp (Chr a)) rest
  | "?"%char :: rest => on_atom (fun a => Alt (Chr a) Emp) rest
  | "{"%char :: _ => None
  | _ => Some (r, inp)
  end.

Definition cat (r1 r2 : re) : re :=
  match r2 with Emp => r1 | _ => Cat r1 r2 end.

(** Recursive descent; [n] is the number of capturing groups opened so
    far, and groups are numbered by their opening parenthesis. *)
Fixpoint parse_alt (fuel : nat) (inp : str) (n : nat) : option (re * str * nat) :=
  match fuel with
  | O => None
  | S f =>
      match parse_seq f inp n with
      | Some (r1, "|"%char :: rest, n1) =>
          match parse_alt f rest n1 with
          | Some (r2, rest2, n2) => Some (Alt r1 r2, rest2, n2)
          | None => None
          end
      | other => other
      end
  end
with parse_seq (fuel : nat) (inp : str) (n : nat) : option (re * str * nat) :=
  match fuel with
  | O => None
  | S f =>
      match inp with
      | [] => Some (Emp, inp, n)
      | "|"%char :: _ => Some (Emp, inp, n)
      | ")"%char :: _ => Some (Emp, inp, n)
      | _ =>
          match parse_atom f inp n with
          | Some (r, rest, n1) =>
              match quantify r rest with
              | Some (rq, rest1) =>
                  match parse_seq f rest1 n1 with
                  | Some (rs, rest2, n2) => Some (cat rq rs, rest2, n2)
                  | None => None
                  end
              | None => None
              end
          | None => None
          end
      end
  end
with parse_atom (fuel : nat) (inp : str) (n : nat) : option (re * str * nat) :=
  match fuel with
  | O => None
  | S f =>
      let closed (wrap : re -> option re) (res : option (re * str * nat)) :=
        match res with
        | Some (r, ")"%char :: rest, n1) =>
            match wrap r with Some r' => Some (r', rest, n1) | None => None end
        | _ => None
        end in
      match inp with
      | "("%char :: "?"%char :: ":"%char :: rest =>
          closed (fun r => Some r) (parse_alt f rest n)
      | "("%char :: "?"%char :: "!"%char :: rest =>
          closed (fun r => Some (NotAhead r)) (parse_alt f rest n)
      | "("%char :: "?"%char :: "<"%char :: "!"%char :: rest =>
          closed (fun r => option_map NotBehind (atom_of r)) (parse_alt f rest n)
      | "("%char :: "?"%char :: _ => None
      | "("%char :: rest =>
          closed (fun r => Some (Group (S n) r)) (parse_alt f rest (S n))
      | "["%char :: "^"%char :: rest =>
          match parse_items true rest with
          | Some (its, rest') => Some (Chr (ASet true its), rest', n)
          | None => None
          end
      | "["%char :: rest =>
          match parse_items true rest with
          | Some (its, rest') => Some (Chr (ASet false its), rest', n)
          | None => None
          end
      | "\"%char :: c :: rest =>
          match escape_re c with
          | Some r => Some (r, rest, n)
          | None => None
          end
      | "."%char :: rest => Some (Chr ADot, rest, n)
      | "^"%char :: rest => Some (Bol, rest, n)
      | "$"%char :: rest => Some (Eol, rest, n)
      | "*"%char :: _ | "+"%char :: _ | "?"%char :: _ | ")"%char :: _
      | "|"%char :: _ | "{"%char :: _ | "\"%char :: _ | [] => None
      | c :: rest => Some (Chr (ALit c), rest, n)
      end
  end.

(** [re.compile(pattern)]: the pattern read to the end. *)
Definition compile (pattern : str) : re :=
  match parse_alt (3 * len pattern + 3) pattern 0 with
  | Some (r, [], _) => r
  | _ => Never
  end.

(** Whether a pattern lies in the fragment. *)
Definition readable (pattern : str) : bool :=
  match parse_alt (3 * len pattern + 3) pattern 0 with
  | Some (_, [], _) => true
  | _ => false
  end.

(** The number of capturing groups of a pattern. *)
Fixpoint groups (r : re) : nat :=
  match r with
  | Cat r1 r2 | Alt r1 r2 => Nat.max (groups r1) (groups r2)
  | NotAhead r1 => groups r1
  | Group n r1 => Nat.max n (groups r1)
  | _ => 0
  end.

(** *** Matching *)

Record flags : Type := Flags {
  IGNORECASE : bool;
  MULTILINE : bool;
  DOTALL : bool
}.

Definition no_flags : flags := Flags false false false.

(** Under IGNORECASE the engine lowers the character read and compares it
    with the lowered literal, inside a class as well as outside. *)
Definition lit_ok (f : flags) (x c : ascii) : bool :=
  if IGNORECASE f then chr_eqb (lower_chr x) (lower_chr c) else chr_eqb x c.

Definition item_ok (f : flags) (i : citem) (c : ascii) : bool :=
  match i with
  | CChar x => lit_ok f x c
  | CSpace => is_space c
  | CDigit => is_digit c
  | CWord => is_word c
  end.

Definition atom_ok (f : flags) (a : atom) (c : ascii) : bool :=
  match a with
  | ALit x => lit_ok f x c
  | ADot => DOTALL f || negb (chr_eqb c nl)
  | ASet neg items => xorb neg (existsb (fun i => item_ok f i c) items)
  end.

(** A position in the subject: the text behind it, nearest character
    first, and the text ahead of it. *)
Record cursor : Type := Cursor { behind : str; ahead : str }.

Definition offset (p : cursor) : nat := len (behind p).

Definition origin (s : str) : cursor := Cursor [] s.

Definition at_bol (f : flags) (p : cursor) : bool :=
  match behind p with
  | [] => true
  | c :: _ => MULTILINE f && chr_eqb c nl
  end.

(** [$]: the end, or just before a newline — any newline under
    MULTILINE, the last character otherwise. *)
Definition at_eol (f : flags) (p : cursor) : bool :=
  match ahead p with
  | [] => true
  | c :: rest =>
      chr_eqb c nl && (MULTILINE f || match rest with [] => true | _ => false end)
  end.

Definition word_side (s : str) : bool :=
  match s with c :: _ => is_word c | [] => false end.

Definition at_wordb (p : cursor) : bool :=
  xorb (word_side (behind p)) (word_side (ahead p)).

(** The captured groups, most recent first. *)
Definition captures := list (nat * str).

(** The text between two positions of one subject. *)
Definition between_cursors (p q : cursor) : str :=
  rev (firstn (offset q - offset p) (behind q)).

(** [a*] (greedy) or [a*?] (lazy) from a position, with the continuation
    [k] of the rest of the pattern. *)
Fixpoint star_loop (A : Type) (f : flags) (greedy : bool) (a : atom)
    (k : cursor -> option A) (b s : str) : option A :=
  match s with
  | c :: s' =>
      if atom_ok f a c then
        if greedy then
          match star_loop f greedy a k (c :: b) s' with
          | Some x => Some x
          | None => k (Cursor b s)
          end
        else
          match k (Cursor b s) with
          | Some x => Some x
          | None => star_loop f greedy a k (c :: b) s'
          end
      else k (Cursor b s)
  | [] => k (Cursor b s)
  end.

(** The backtracking matcher, in continuation-passing style: [k] is what
    remains to be matched after [r]; alternatives are tried in order and
    the first success is the answer. *)
Fixpoint run (f : flags) (r : re) (A : Type) (p : cursor) (cs : captures)
    (k : cursor -> captures -> option A) : option A :=
  match r with
  | Emp => k p cs
  | Chr a =>
      match ahead p with
      | c :: s' => if atom_ok f a c then k (Cursor (c :: behind p) s') cs else None
      | [] => None
      end
  | Cat r1 r2 => run f r1 p cs (fun q cs' => run f r2 q cs' k)
  | Alt r1 r2 =>
      match run f r1 p cs k with
      | Some x => Some x
      | None => run f r2 p cs k
      end
  | Star greedy a => star_loop f greedy a (fun q => k q cs) (behind p) (ahead p)
  | Bol => if at_bol f p then k p cs else None
  | Eol => if at_eol f p then k p cs else None
  | WordB => if at_wordb p then k p cs else None
  | NotAhead r1 =>
      match run f r1 p cs (fun _ _ => Some tt) with
      | Some _ => None
      | None => k p cs
      end
  | NotBehind a =>
      match behind p with
      | c :: _ => if atom_ok f a c then None else k p cs
      | [] => k p cs
      end
  | Group n r1 => run f r1 p cs (fun q cs' => k q ((n, between_cursors p q) :: cs'))
  end.

(** A match: where it starts, where it ends, what it captured. *)
Record hit : Type := Hit { h_start : cursor; h_end : cursor; h_caps : captures }.

Definition h_text (h : hit) : str := between_cursors (h_start h) (h_end h).

(** [m.group(n)] for a group that took part in the match, and the empty
    string otherwise (what [findall] reports for it). *)
Fixpoint group (n : nat) (cs : captures) : str :=
  match cs with
  | [] => []
  | (i, t) :: cs' => if i =? n then t else group n cs'
  end.

(** One attempt at one position.  [must_advance] refuses an empty match:
    the engine sets it for the attempt that follows an empty match. *)
Definition match_here (f : flags) (r : re) (must_advance : bool) (p : cursor)
  : option hit :=
  run f r p []
    (fun q cs => if must_advance && (offset q =? offset p)
                 then None else Some (Hit p q cs)).

(** [re.match]: one attempt at the start of the subject. *)
Definition re_match (f : flags) (r : re) (s : str) : option hit :=
  match_here f r false (origin s).

(** The first position, from [p] on, where the pattern matches. *)
Fixpoint search_from (f : flags) (r : re) (b s : str) : option hit :=
  match match_here f r false (Cursor b s) with
  | Some h => Some h
  | None =>
      match s with
      | c :: s' => search_from f r (c :: b) s'
      | [] => None
      end
  end.

(** [re.search]. *)
Definition re_search (f : flags) (r : re) (s : str) : option hit :=
  search_from f r [] s.

Definition found (o : option hit) : bool :=
  match o with Some _ => true | None => false end.

(** What a left-to-right scan of the subject meets, in order: characters
    outside every match, and matches. *)
Inductive piece : Type :=
| Plain (c : ascii)
| Matched (h : hit).

(** The scan shared by [findall], [sub] and [split].  After a match the
    search resumes where the match ended; after an empty match the next
    attempt at that same position must consume something.  [skip] counts
    the characters ahead that the last match has consumed. *)
Fixpoint scan (f : flags) (r : re) (skip : nat) (b s : str) : list piece :=
  let here := Cursor b s in
  let step (k : nat) : list piece :=
    match s with
    | c :: s' =>
        match k with
        | O => Plain c :: scan f r 0 (c :: b) s'
        | S k' => scan f r k' (c :: b) s'
        end
    | [] => []
    end in
  match skip with
  | S _ => step skip
  | O =>
      match match_here f r false here with
      | None => step 0
      | Some h =>
          let n := offset (h_end h) - offset here in
          match n with
          | S _ => Matched h :: step n
          | O =>
              match match_here f r true here with
              | None => Matched h :: step 0
              | Some h' => Matched h :: Matched h' :: step (offset (h_end h') - offset here)
              end
          end
      end
  end.

Definition pieces (f : flags) (r : re) (s : str) : list piece := scan f r 0 [] s.

Definition hits (ps : list piece) : list hit :=
  flat_map (fun p => match p with Matched h => [h] | Plain _ => [] end) ps.

(** [re.sub(pattern, repl, s)] for a replacement without group references. *)
Definition re_sub (f : flags) (r : re) (repl s : str) : str :=
  flat_map (fun p => match p with Matched _ => repl | Plain c => [c] end)
           (pieces f r s).

(** [re.findall] for a pattern without groups and for one with a single
    group; with two groups the source keeps [m[0] or m[1]]. *)
Definition re_findall0 (f : flags) (r : re) (s : str) : list str :=
  map h_text (hits (pieces f r s)).

Definition re_findall1 (f : flags) (r : re) (s : str) : list str :=
  map (fun h => group 1 (h_caps h)) (hits (pieces f r s)).

Definition re_findall2 (f : flags) (r : re) (s : str) : list (str * str) :=
  map (fun h => (group 1 (h_caps h), group 2 (h_caps h))) (hits (pieces f r s)).

(** [re.split] for a pattern without groups: the text between matches. *)
Fixpoint split_pieces (cur : str) (ps : list piece) : list str :=
  match ps with
  | [] => [rev cur]
  | Plain c :: ps' => split_pieces (c :: cur) ps'
  | Matched _ :: ps' => rev cur :: split_pieces [] ps'
  end.

Definition re_split (f : flags) (r : re) (s : str) : list str :=
  split_pieces [] (pieces f r s).

(** ** Exceptions

    The one place of the two files where an exception can originate
    inside the code itself is [.group(1)] on the result of a search; a
    failed search gives [None] and the attribute access raises. *)

Inductive exn : Type := AttributeError.

Inductive raising (A : Type) : Type :=
| Ok (a : A)
| Raise (e : exn).

Arguments Ok {A} a.
Arguments Raise {A} e.

Definition bind {A B : Type} (m : raising A) (k : A -> raising B) : raising B :=
  match m with
  | Ok a => k a
  | Raise e => Raise e
  end.

Notation "x <- m ;; k" := (bind m (fun x => k))
  (at level 61, m at next level, right associativity).

(** ** guardrails.py *)

Inductive GuardrailViolationType : Type :=
| SECURITY | SAFETY | PERFORMANCE | SCHEMA | COMPLEXITY | FORMAT.

Inductive RiskLevel : Type :=
| CRITICAL | HIGH | MEDIUM | LOW | INFO.

Record GuardrailViolation : Type := Violation {
  violation_type : GuardrailViolationType;
  risk_level : RiskLevel;
  message : str;
  query_snippet : option str;
  suggestion : option str;
  blocks_execution : bool
}.

Record Metadata : Type := MkMetadata {
  timestamp : str;
  query_length : nat;
  normalized_query : str
}.

Record GuardrailResult : Type := MkResult {
  is_safe : bool;
  violations : list GuardrailViolation;
  warnings : list GuardrailViolation;
  metadata : Metadata
}.

Definition is_critical (v : GuardrailViolation) : bool :=
  match risk_level v with CRITICAL => true | _ => false end.

Definition get_critical_violations (r : GuardrailResult) : list GuardrailViolation :=
  filter is_critical (violations r).

Definition get_blocking_violations (r : GuardrailResult) : list GuardrailViolation :=
  filter blocks_execution (violations r).

Record Config : Type := MkConfig {
  max_rows : Z;
  default_row_limit : Z;
  warn_row_threshold : Z;
  max_joins : Z;
  max_subqueries : Z;
  max_query_length : Z;
  timeout_seconds : Z;
  allow_modifications : bool;
  allow_schema_changes : bool;
  require_where_for_delete : bool;
  validate_tables : bool;
  validate_columns : bool;
  known_tables : list str
}.

Definition _default_config : Config :=
  MkConfig 10000 1000 5000 5 3 5000 30 false false true true false
    [ lit "customer_information"; lit "transaction_history"; lit "crs";
      lit "crs_account_report"; lit "crs_countrycode"; lit "crs_messagespec" ].

Definition f_I : flags := Flags true false false.
Definition f_S : flags := Flags false false true.
Definition f_M : flags := Flags false true false.
Definition f_IM : flags := Flags true true false.
Definition f_IS : flags := Flags true false true.

Definition str_of_Z (z : Z) : str :=
  match z with
  | Zneg p => lit "-" ++ str_of_N (Npos p)
  | _ => str_of_N (Z.to_N z)
  end.

Definition _normalize_query (query : str) : str :=
  let query := re_sub no_flags (compile (lit "--.*?(\n|$)")) (lit " ") query in
  let query := re_sub f_S (compile (lit "/\*.*?\*/")) (lit " ") query in
  join (lit " ") (split_ws query).

Definition _extract_snippet (query pattern : str) : str :=
  let context := 50 in
  match re_search f_I (compile pattern) query with
  | Some m =>
      let start := Nat.max 0 (offset (h_start m) - context) in
      let end_ := Nat.min (len query) (offset (h_end m) + context) in
      lit "..." ++ slice start end_ query ++ lit "..."
  | None => slice 0 100 query ++ lit "..."
  end.

Definition injection_patterns : list (str * str) :=
  [ (lit ";\s*DROP\s+TABLE", lit "SQL injection: DROP TABLE after semicolon");
    (lit ";\s*DELETE\s+FROM", lit "SQL injection: DELETE after semicolon");
    (lit ";\s*UPDATE\s+", lit "SQL injection: UPDATE after semicolon");
    (lit "UNION\s+.*?\s+SELECT.*?--", lit "SQL injection: UNION with comment");
    (lit "'\s*OR\s+['\" ++ dquote :: lit "]\s*['\" ++ dquote :: lit "]?\s*=\s*['\"
       ++ dquote :: lit "]",
     lit "SQL injection: OR with always-true condition");
    (lit "'\s*OR\s+1\s*=\s*1", lit "SQL injection: OR 1=1");
    (lit "EXEC\s*\(", lit "Dynamic SQL execution attempt");
    (lit "EXECUTE\s*\(", lit "Dynamic SQL execution attempt");
    (lit "XP_CMDSHELL", lit "OS command execution attempt");
    (lit "SP_EXECUTESQL", lit "Dynamic SQL execution attempt") ].

Definition _check_security (query : str) : list GuardrailViolation :=
  let normalized := upper (_normalize_query query) in
  let violations :=
    flat_map (fun pm : str * str =>
      let (pattern, msg) := pm in
      if found (re_search f_I (compile pattern) normalized)
      then [ Violation SECURITY CRITICAL (lit "Security violation: " ++ msg)
               (Some (_extract_snippet query pattern))
               (Some (lit "Remove malicious SQL patterns")) true ]
      else []) injection_patterns in
  violations ++
  (if found (re_search no_flags (compile (lit "CHAR\s*\(|ASCII\s*\(|CONVERT\s*\(")) normalized)
   then [ Violation SECURITY HIGH
            (lit "Potential obfuscation detected (CHAR/ASCII/CONVERT)")
            None (Some (lit "Use plain SQL without encoding")) true ]
   else []).

Definition destructive_ops : list (str * str) :=
  [ (lit "DELETE", lit "DELETE operation");
    (lit "UPDATE", lit "UPDATE operation");
    (lit "INSERT", lit "INSERT operation");
    (lit "TRUNCATE", lit "TRUNCATE operation");
    (lit "DROP", lit "DROP operation");
    (lit "ALTER", lit "ALTER operation");
    (lit "CREATE", lit "CREATE operation");
    (lit "MERGE", lit "MERGE operation") ].

(** [r'\b' + op + r'\b'] *)
Definition word_pattern (op : str) : str := lit "\b" ++ op ++ lit "\b".

Definition _check_safety (query : str) : list GuardrailViolation :=
  let normalized := upper (_normalize_query query) in
  let has (p : str) := found (re_search no_flags (compile p) normalized) in
  flat_map (fun od : str * str =>
    let (op, description) := od in
    if has (word_pattern op)
    then [ Violation SAFETY CRITICAL
             (lit "Destructive operation blocked: " ++ description)
             None (Some (lit "Only SELECT queries are allowed")) true ]
    else []) destructive_ops
  ++ (if has (lit "SELECT\s+.*?\s+INTO\s+")
      then [ Violation SAFETY HIGH
               (lit "SELECT INTO operation blocked (creates tables)")
               None (Some (lit "Use standard SELECT without INTO")) true ]
      else [])
  ++ (if has (lit "\bFROM\b") && negb (has (lit "\bWHERE\b"))
      then if negb (has (lit "\bTOP\b|\bLIMIT\b"))
           then [ Violation PERFORMANCE MEDIUM
                    (lit "Query missing WHERE clause and row limit")
                    None
                    (Some (lit "Add WHERE clause or TOP/LIMIT to prevent full table scan"))
                    false ]
           else []
      else []).

(** [int(re.search(r'TOP\s+(\d+)', normalized).group(1))] *)
Definition top_value_of (normalized : str) : raising Z :=
  match re_search no_flags (compile (lit "TOP\s+(\d+)")) normalized with
  | Some m => Ok (Z.of_N (int_of_digits (group 1 (h_caps m))))
  | None => Raise AttributeError
  end.

Definition _check_performance (config : Config) (query : str)
  : raising (list GuardrailViolation) :=
  let normalized := upper (_normalize_query query) in
  let qlen := Z.of_nat (len query) in
  let v_length :=
    if (qlen >? max_query_length config)%Z
    then [ Violation PERFORMANCE HIGH
             (lit "Query too long (" ++ str_of_Z qlen ++ lit " chars, max "
                ++ str_of_Z (max_query_length config) ++ lit ")")
             None (Some (lit "Simplify query or break into smaller queries")) true ]
    else [] in
  let join_count :=
    Z.of_nat (List.length (re_findall0 no_flags (compile (lit "\bJOIN\b")) normalized)) in
  let v_joins :=
    if (join_count >? max_joins config)%Z
    then [ Violation PERFORMANCE HIGH
             (lit "Too many JOINs (" ++ str_of_Z join_count ++ lit ", max "
                ++ str_of_Z (max_joins config) ++ lit ")")
             None (Some (lit "Reduce number of JOINs or use temporary tables")) true ]
    else [] in
  let subquery_count := (Z.of_nat (count_sub (lit "SELECT") normalized) - 1)%Z in
  let v_subqueries :=
    if (subquery_count >? max_subqueries config)%Z
    then [ Violation PERFORMANCE MEDIUM
             (lit "Too many subqueries (" ++ str_of_Z subquery_count ++ lit ", max "
                ++ str_of_Z (max_subqueries config) ++ lit ")")
             None (Some (lit "Simplify query or use CTEs")) false ]
    else [] in
  let v_star :=
    if found (re_search no_flags (compile (lit "SELECT\s+\*")) normalized)
    then [ Violation PERFORMANCE LOW
             (lit "SELECT * may return unnecessary columns")
             None (Some (lit "Specify only needed columns")) false ]
    else [] in
  let has_top := found (re_search no_flags (compile (lit "\bTOP\s+\d+\b")) normalized) in
  v_top <-
    (if has_top
     then
       top_value <- top_value_of normalized ;;
       Ok (if (top_value >? max_rows config)%Z
           then [ Violation PERFORMANCE HIGH
                    (lit "TOP value too large (" ++ str_of_Z top_value ++ lit ", max "
                       ++ str_of_Z (max_rows config) ++ lit ")")
                    None
                    (Some (lit "Reduce TOP to " ++ str_of_Z (max_rows config)
                             ++ lit " or less"))
                    true ]
           else [])
     else Ok []) ;;
  Ok (v_length ++ v_joins ++ v_subqueries ++ v_star ++ v_top).

(** [table.split('.')[-1]]: what follows the last dot. *)
Fixpoint last_segment (acc : str) (s : str) : str :=
  match s with
  | [] => rev acc
  | c :: s' => if chr_eqb c "." then last_segment [] s' else last_segment (c :: acc) s'
  end.

(** [x in xs] for strings. *)
Definition str_in (x : str) (xs : list str) : bool := existsb (str_eqb x) xs.

Definition _check_schema (config : Config) (query : str) : list GuardrailViolation :=
  let normalized := upper (_normalize_query query) in
  let matches := re_findall2 f_I (compile (lit "\bFROM\s+(\w+)|JOIN\s+(\w+)")) normalized in
  let referenced_tables :=
    map (fun m : str * str => match fst m with [] => snd m | _ => fst m end) matches in
  let known_tables_upper := map upper (known_tables config) in
  flat_map (fun table =>
    let table_name := last_segment [] table in
    if negb (str_in table_name known_tables_upper)
    then [ Violation SCHEMA HIGH
             (lit "Unknown table referenced: " ++ table)
             None
             (Some (lit "Use one of the known tables: "
                      ++ join (lit ", ") (known_tables config)))
             true ]
    else []) referenced_tables.

Definition is_empty (s : str) : bool :=
  match s with [] => true | _ => false end.

Definition _check_format (query : str) : list GuardrailViolation :=
  let normalized := _normalize_query query in
  if is_empty query || is_empty (strip query)
  then [ Violation FORMAT CRITICAL (lit "Query is empty")
           None (Some (lit "Provide a valid SQL query")) true ]
  else
    (if negb (found (re_match f_I (compile (lit "^\s*(SELECT|WITH)\b")) normalized))
     then [ Violation FORMAT HIGH (lit "Query must start with SELECT or WITH")
              None (Some (lit "Only SELECT and CTE queries are allowed")) true ]
     else [])
    ++
    (let open_parens := count_chr "(" normalized in
     let close_parens := count_chr ")" normalized in
     if negb (open_parens =? close_parens)
     then [ Violation FORMAT HIGH
              (lit "Unbalanced parentheses (open: " ++ str_of_nat open_parens
                 ++ lit ", close: " ++ str_of_nat close_parens ++ lit ")")
              None (Some (lit "Check query syntax for missing parentheses")) true ]
     else []).

(** The violations in the order [validate_query] collects them. *)
Definition collect_violations (config : Config) (query : str)
  : raising (list GuardrailViolation) :=
  let violations := [] in
  let violations := violations ++ _check_security query in
  let violations := violations ++ _check_safety query in
  perf <- _check_performance config query ;;
  let violations := violations ++ perf in
  let violations := violations ++ _check_format query in
  Ok (if validate_tables config
      then violations ++ _check_schema config query
      else violations).

(** [SQLGuardrails(config).validate_query(query)]; [now] is the reading
    of [datetime.utcnow().isoformat()]. *)
Definition validate_query (config : Config) (now : str) (query : str)
  : raising GuardrailResult :=
  let metadata := MkMetadata now (len query) (_normalize_query query) in
  violations <- collect_violations config query ;;
  let blocking_violations := filter blocks_execution violations in
  let non_blocking := filter (fun v => negb (blocks_execution v)) violations in
  let is_safe := List.length blocking_violations =? 0 in
  Ok (MkResult is_safe blocking_violations non_blocking metadata).

Definition quick_validate (now : str) (query : str) : raising (bool * str) :=
  result <- validate_query _default_config now query ;;
  if is_safe result
  then Ok (true, lit "Query passed all guardrail checks")
  else
    let critical_violations := get_critical_violations result in
    match critical_violations with
    | _ :: _ => Ok (false, join (lit "; ") (map message critical_violations))
    | [] => Ok (true, lit "Query has warnings but is allowed")
    end.







(** ** sql_query_executor.py *)

Definition dangerous_keywords : list str :=
  map lit [ "INSERT"; "UPDATE"; "DELETE"; "DROP"; "CREATE"; "ALTER"; "TRUNCATE";
            "MERGE"; "REPLACE"; "EXEC"; "EXECUTE"; "CALL";
            "GRANT"; "REVOKE"; "COMMIT"; "ROLLBACK"; "SAVEPOINT";
            "BACKUP"; "RESTORE"; "SHUTDOWN";
            "OPENROWSET"; "OPENDATASOURCE" ]%string.

Definition suspicious_patterns : list str :=
  map lit [ ";\s*(INSERT|UPDATE|DELETE|DROP|CREATE|ALTER)";
            "UNION.*?(INSERT|UPDATE|DELETE|DROP|CREATE|ALTER)";
            "--.*;";
            "/\*.*?;.*?\*/";
            "\bXP_\w+\s*\(";
            "\bSP_\w+\s*\(";
            "WAITFOR\s+DELAY" ]%string.

Definition executor_injection_patterns : list str :=
  [ lit "(\bOR|\bAND)\s+['\" ++ dquote :: lit "]\s*['\" ++ dquote :: lit "]\s*=";
    lit "(\bOR|\bAND)\s+\d+\s*=\s*\d+\s+--";
    lit "'\s*;\s*--";
    lit "'\s*;\s*/\*" ].

(** [r'\b' + keyword + r'\b\s*[\s\(;]'] *)
Definition keyword_pattern (keyword : str) : str :=
  lit "\b" ++ keyword ++ lit "\b\s*[\s\(;]".

(** The first statement of the validator: comments out, white space
    collapsed. *)
Definition normalized_of (query : str) : str :=
  let normalized_query := re_sub no_flags (compile (lit "--.*?(\n|$)")) (lit " ") query in
  let normalized_query :=
    re_sub f_S (compile (lit "/\*.*?\*/")) (lit " ") normalized_query in
  join (lit " ") (split_ws normalized_query).

Definition cte_pattern : str := lit "\s*WITH\s+.*?\s+AS\s*\(".
Definition select_pattern : str := lit "\s*SELECT\b".

Definition is_cte (normalized_query : str) : bool :=
  found (re_match f_I (compile cte_pattern) normalized_query).

Definition is_select (normalized_query : str) : bool :=
  found (re_match f_I (compile select_pattern) normalized_query).

(** The shape test of the validator; [Some msg] is an early
    [return False, msg]. *)
Definition shape_error (normalized_query : str) : option str :=
  if is_cte normalized_query then
    let cte_parts :=
      re_split f_I (compile (lit "\)\s*,?\s*(?:SELECT|WITH)\b")) normalized_query in
    if 1 <? List.length cte_parts then
      let final_query_part := lit "SELECT" ++ last cte_parts [] in
      if negb (found (re_search f_I (compile (lit "^\s*SELECT\b")) final_query_part))
      then Some (lit "CTEs must end with a SELECT statement")
      else None
    else
      if negb (found (re_search f_I (compile (lit "\)\s*SELECT\b")) normalized_query))
      then Some (lit "CTEs must end with a SELECT statement")
      else None
  else if negb (is_select normalized_query)
  then Some (lit "Only SELECT statements are allowed")
  else None.

Definition validate_sql_query (query : str) : bool * str :=
  let normalized_query := normalized_of query in
  let hit_by (p : str) := found (re_search f_I (compile p) normalized_query) in
  match shape_error normalized_query with
  | Some msg => (false, msg)
  | None =>
      match find (fun keyword => hit_by (keyword_pattern keyword)) dangerous_keywords with
      | Some keyword => (false, lit "Dangerous SQL keyword detected: " ++ keyword)
      | None =>
          if existsb hit_by suspicious_patterns
          then (false, lit "Suspicious SQL pattern detected")
          else if existsb hit_by executor_injection_patterns
          then (false, lit "SQL injection pattern detected")
          else (true, lit "Query is valid")
      end
  end.

Definition explanatory_patterns : list str :=
  map lit [ "^\s*Here\s+is\s+the\s+.*query.*:?\s*$";
            "^\s*The\s+following\s+query.*:?\s*$";
            "^\s*This\s+query.*:?\s*$";
            "^\s*Query\s+explanation.*:?\s*$";
            "^\s*SQL\s+Query.*:?\s*$";
            "^\s*Analysis.*:?\s*$";
            "^\s*Chart.*:?\s*$";
            "^\s*Report.*:?\s*$";
            "^\s*Explanation.*:?\s*$";
            "^\s*Description.*:?\s*$" ]%string.

Definition prose_patterns : list str :=
  map lit [ "^\s*(?!--).*\b(?:will|shows?|gives?|returns?|provides?|analysis|breakdown|complete)\b.*(?<!;)\s*$";
            "^\s*(?!--).*\b(?:This|That|These|Those)\s+.*(?<!;)\s*$" ]%string.

Definition sql_keyword_pattern : str :=
  lit "\b(?:SELECT|FROM|WHERE|GROUP|ORDER|JOIN|UNION|INSERT|UPDATE|DELETE)\b".

(** [re.sub(pattern, '', s, flags=...)] *)
Definition erase (f : flags) (pattern : str) (s : str) : str :=
  re_sub f (compile pattern) [] s.

Definition clean_sql_query (query : str) : str :=
  if is_empty query then query else
  let cleaned_query := erase f_M (lit "^#+\s*.*$") query in
  let cleaned_query := erase f_M (lit "^```\s*sql\s*$") cleaned_query in
  let cleaned_query := erase f_M (lit "^```\s*$") cleaned_query in
  let cleaned_query := erase f_IM (lit "^\s*\d+\.\s+[^S][^E][^L].*$") cleaned_query in
  let cleaned_query :=
    erase f_IM (lit "^\s*[-*]\s+(?!.*SELECT|.*FROM|.*WHERE|.*GROUP|.*ORDER).*$")
          cleaned_query in
  let cleaned_query :=
    fold_left (fun acc pattern => erase f_IM pattern acc)
              explanatory_patterns cleaned_query in
  let cleaned_query :=
    fold_left (fun acc pattern =>
                 if negb (found (re_search f_I (compile sql_keyword_pattern) acc))
                 then erase f_IM pattern acc
                 else acc)
              prose_patterns cleaned_query in
  let cleaned_query := re_sub no_flags (compile (lit "\n\s*\n")) [nl] cleaned_query in
  let cleaned_query := erase no_flags (lit "^\s*\n") cleaned_query in
  let cleaned_query := erase no_flags (lit "\n\s*$") cleaned_query in
  strip cleaned_query.

(** *** The batch executor

    The database is outside the program: [sql_connector.py] is not part
    of the sources and [pd.read_sql_query] is pandas.  Both are taken as
    parameters acting on a state of the world. *)

Inductive Status : Type :=
| success | validation_error | connection_error
| format_error | execution_error | json_error.

(** What the executor reads of a [DataFrame]: [len(df)], [df.columns],
    [df.to_json(...)] (which may raise) and [df.dtypes]. *)
Record DataFrame : Type := MkDataFrame {
  df_len : nat;
  df_columns : list str;
  df_to_json : str + str;          (* the JSON text, or str(json_err) *)
  df_dtypes : list (str * str)
}.

(** One entry of the returned list (a dict in the source). *)
Record ExecutionRecord : Type := MkRecord {
  r_query : str;
  r_result : str;
  r_status : Status;
  r_row_count : option nat;
  r_column_count : option nat;
  r_columns : option (list str);
  r_column_info : option (list (str * str))
}.

Definition plain_record (query result : str) (status : Status) : ExecutionRecord :=
  MkRecord query result status None None None None.

Definition sql_blocks (sql_code : str) : list str :=
  re_findall1 f_S (compile (lit "```\s*sql\s*(.*?)```")) sql_code.

Definition any_blocks (sql_code : str) : list str :=
  re_findall1 f_S (compile (lit "```(.*?)```")) sql_code.

(** [a or b] on lists. *)
Definition list_or {A : Type} (a b : list A) : list A :=
  match a with [] => b | _ => a end.

(** The statements found when the text has no fenced block. *)
Definition unfenced_queries (sql_code : str) : list str :=
  let cleaned_code := clean_sql_query sql_code in
  if negb (is_empty cleaned_code) && negb (is_empty (strip cleaned_code)) then
    if found (re_match f_IM (compile (lit "^\s*(SELECT|WITH|DECLARE)\b")) cleaned_code)
    then [cleaned_code]
    else
      let potential_queries :=
        re_findall1 f_IS (compile (lit "((?:WITH|SELECT)\b.*?(?:;|$))")) sql_code in
      match potential_queries with
      | [] => []
      | _ => map clean_sql_query
               (filter (fun q => negb (is_empty (strip (clean_sql_query q))))
                       potential_queries)
      end
  else [].

Definition extract_queries (sql_code : str) : list str :=
  match list_or (sql_blocks sql_code) (any_blocks sql_code) with
  | [] => unfenced_queries sql_code
  | queries => queries
  end.

Section Executor.

Variable World : Type.
Variable Connection : Type.

(** [connect_to_sql_server()], reduced to the connection it returns. *)
Variable connect_to_sql_server : World -> option Connection * World.

(** [pd.read_sql_query(query, connection)]: a frame, or [str(e)] of the
    exception raised. *)
Variable read_sql_query : str -> Connection -> World -> (DataFrame + str) * World.

(** The state threaded through the loop: the world, and the statements
    handed to [pd.read_sql_query] so far, oldest first. *)
Record LoopState : Type := MkLoop {
  world : World;
  submitted : list str;
  results : list ExecutionRecord
}.

(** One turn of [for query_idx, query in enumerate(queries)]. *)
Definition loop_body (connection : Connection) (st : LoopState)
    (query_idx : nat) (query : str) : LoopState :=
  let query := strip query in
  let query := clean_sql_query query in
  let append r := MkLoop (world st) (submitted st) (results st ++ [r]) in
  if is_empty query then
    append (plain_record []
              (lit "Empty query found in code block #" ++ str_of_nat (query_idx + 1))
              validation_error)
  else
    let (is_valid, validation_message) := validate_sql_query query in
    if negb is_valid then
      append (plain_record query
                (lit "Query validation failed: " ++ validation_message)
                validation_error)
    else
      let (outcome, w) := read_sql_query query connection (world st) in
      let r :=
        match outcome with
        | inl df =>
            match df_to_json df with
            | inl json =>
                MkRecord query json success
                  (Some (df_len df)) (Some (List.length (df_columns df)))
                  (Some (df_columns df)) None
            | inr json_err =>
                MkRecord query
                  (lit "Error converting results to JSON: " ++ json_err) json_error
                  (Some (df_len df)) (Some (List.length (df_columns df)))
                  (Some (df_columns df)) (Some (df_dtypes df))
            end
        | inr e => plain_record query (lit "Error executing SQL: " ++ e) execution_error
        end in
      MkLoop w (submitted st ++ [query]) (results st ++ [r]).

Fixpoint run_loop (connection : Connection) (st : LoopState)
    (query_idx : nat) (queries : list str) : LoopState :=
  match queries with
  | [] => st
  | query :: rest =>
      run_loop connection (loop_body connection st query_idx query) (S query_idx) rest
  end.

(** [execute_multiple_sql_code(sql_code, connection)]. *)
Definition execute_multiple_sql_code (sql_code : str)
    (connection : option Connection) (w : World) : LoopState :=
  let (connection, w) :=
    match connection with
    | Some c => (Some c, w)
    | None => connect_to_sql_server w
    end in
  match connection with
  | None =>
      MkLoop w []
        [plain_record [] (lit "Error: No database connection provided") connection_error]
  | Some c =>
      match extract_queries sql_code with
      | [] =>
          MkLoop w []
            [plain_record
               (if 200 <? len sql_code then slice 0 200 sql_code ++ lit "..." else sql_code)
               (lit "No SQL queries found in the provided code. Please format queries in ```sql code blocks.")
               format_error]
      | queries => run_loop c (MkLoop w [] []) 0 queries
      end
  end.

End Executor.

(** A database for examples: one world, one connection, every statement
    answered with an empty frame. *)
Definition empty_frame : DataFrame := MkDataFrame 0 [] (inl (lit "[]")) [].

Definition no_server (w : unit) : option unit * unit := (None, w).

Definition empty_db (query : str) (c : unit) (w : unit) : (DataFrame + str) * unit :=
  (inl empty_frame, w).

(** A response with one fenced statement over a table the guardrail
    configuration does not know. *)
Definition unknown_table_response : str :=
  lit "```sql" ++ nl :: lit "SELECT * FROM nonexistent_table" ++ nl :: lit "```".

(** A response with two fenced statements, the second one empty. *)
Definition two_block_response : str :=
  lit "```sql" ++ nl :: lit "SELECT 1" ++ nl :: lit "``` then ```sql" ++ nl :: lit "```".

(** The engine's result for [SELECT * FROM nonexistent_table] under the
    default configuration, and its one blocking violation. *)
Definition unknown_table_result : GuardrailResult :=
  Eval vm_compute in
    match validate_query _default_config (lit "2024-01-01T00:00:00")
            (lit "SELECT * FROM nonexistent_table") with
    | Ok r => r
    | Raise _ => MkResult true [] [] (MkMetadata [] 0 [])
    end.

Definition unknown_table_violation : GuardrailViolation :=
  Eval vm_compute in
    hd (Violation FORMAT INFO [] None None false) (violations unknown_table_result).

(** Every pattern of the two source files. *)
Definition patterns_in_use : list str :=
  map fst injection_patterns
  ++ map (fun od => word_pattern (fst od)) destructive_ops
  ++ map keyword_pattern dangerous_keywords
  ++ suspicious_patterns ++ executor_injection_patterns
  ++ explanatory_patterns ++ prose_patterns
  ++ [ sql_keyword_pattern; cte_pattern; select_pattern ]
  ++ map lit
       [ "--.*?(\n|$)"; "/\*.*?\*/"; "CHAR\s*\(|ASCII\s*\(|CONVERT\s*\(";
         "SELECT\s+.*?\s+INTO\s+"; "\bFROM\b"; "\bWHERE\b"; "\bTOP\b|\bLIMIT\b";
         "\bJOIN\b"; "SELECT\s+\*"; "\bTOP\s+\d+\b"; "TOP\s+(\d+)";
         "\bFROM\s+(\w+)|JOIN\s+(\w+)"; "^\s*(SELECT|WITH)\b";
         "\)\s*,?\s*(?:SELECT|WITH)\b"; "^\s*SELECT\b"; "\)\s*SELECT\b";
         "^#+\s*.*$"; "^```\s*sql\s*$"; "^```\s*$";
         "^\s*\d+\.\s+[^S][^E][^L].*$";
         "^\s*[-*]\s+(?!.*SELECT|.*FROM|.*WHERE|.*GROUP|.*ORDER).*$";
         "\n\s*\n"; "^\s*\n"; "\n\s*$";
         "```\s*sql\s*(.*?)```"; "```(.*?)```";
         "^\s*(SELECT|WITH|DECLARE)\b"; "((?:WITH|SELECT)\b.*?(?:;|$))" ]%string.

(** ** The callers of the batch executor

    [execute_sql_with_pyodbc] of sql_query_executor.py and the class
    [DatabaseService] of services/database_service.py.  Both call
    [connect_to_sql_server] with keyword arguments; the call is kept as
    the list of the names passed and their values. *)

Definition kwargs : Type := list (string * option str).

(** What the service reads of [Settings]. *)
Record Settings : Type := MkSettings {
  db_server : str;
  db_database : str;
  db_auth_type : str
}.



(** [f"```sql\n{sql_query}\n```"] *)
Definition fenced (sql_query : str) : str :=
  lit "```sql" ++ nl :: sql_query ++ nl :: lit "```".

(** The keyword arguments of the call in [execute_sql_with_pyodbc]. *)
Definition pyodbc_kwargs (server database auth_type username password : option str)
  : kwargs :=
  [ ("server", server); ("database", database); ("auth_type", auth_type);
    ("username", username); ("password", password) ]%string.

(** The keyword arguments of the call in [DatabaseService.connect]. *)
Definition service_kwargs (s : Settings) : kwargs :=
  [ ("server", Some (db_server s)); ("database", Some (db_database s));
    ("auth_type", Some (db_auth_type s)) ]%string.

Section Callers.

Variable World : Type.
Variable Connection : Type.
Variable Cursor : Type.

(** [connect_to_sql_server(name=value, ...)]: the pair
    [(connection, cursor)] it returns. *)
Variable connect_to_sql_server :
  kwargs -> World -> (option Connection * option Cursor) * World.

Variable read_sql_query : str -> Connection -> World -> (DataFrame + str) * World.

(** [connection.close()]; [Some e] when it raises, [e] being the text of
    the exception. *)
Variable close : Connection -> World -> option str * World.

(** The call without arguments that [execute_multiple_sql_code] makes
    when it is given no connection. *)
Definition connect_plain (w : World) : option Connection * World :=
  let (cc, w') := connect_to_sql_server [] w in (fst cc, w').

(** What a call leaves behind: the list returned or the text of the
    exception that escapes, the world, and the statements handed to
    [pd.read_sql_query]. *)
Record Run : Type := MkRun {
  returned : list ExecutionRecord + str;
  run_world : World;
  run_submitted : list str
}.

Definition execute_sql_with_pyodbc (sql_code : str)
    (server database auth_type username password : option str) (w : World) : Run :=
  let (cc, w) :=
    connect_to_sql_server
      (pyodbc_kwargs server database auth_type username password) w in
  match fst cc with
  | None =>
      MkRun (inl [plain_record []
                    (lit "Could not connect to SQL Server. Check server settings and credentials.")
                    connection_error])
            w []
  | Some connection =>
      (* the [finally] clause: one [close], whatever it raises dropped *)
      let finally (w : World) : World := snd (close connection w) in
      match list_or (sql_blocks sql_code) (any_blocks sql_code) with
      | [] =>
          let (raised, w) := close connection w in
          match raised with
          | Some e => MkRun (inr e) (finally w) []
          | None =>
              MkRun (inl [plain_record sql_code
                            (lit "No SQL queries found in the provided code. Please format queries in ```sql code blocks.")
                            format_error])
                    (finally w) []
          end
      | _ =>
          let st := execute_multiple_sql_code connect_plain read_sql_query
                      sql_code (Some connection) w in
          MkRun (inl (results st)) (finally (world st)) (submitted st)
      end
  end.

(** The attributes of a [DatabaseService] object. *)
Record DatabaseService : Type := MkService {
  self_settings : Settings;
  self_connection : option Connection;
  self_cursor : option Cursor
}.

(** The outcome of a method: its value or the text of the exception it
    raises, the object and the world afterwards, and the statements
    handed to [pd.read_sql_query]. *)
Record Outcome (A : Type) : Type := MkOutcome {
  value : A + str;
  self_after : DatabaseService;
  world_after : World;
  handed : list str
}.

(** [DatabaseService.connect] *)
Definition connect (self : DatabaseService) (w : World) : Outcome unit :=
  let (cc, w) := connect_to_sql_server (service_kwargs (self_settings self)) w in
  let self := MkService (self_settings self) (fst cc) (snd cc) in
  match self_connection self with
  | Some _ => MkOutcome (inl tt) self w []
  | None => MkOutcome (inr (lit "Failed to establish database connection")) self w []
  end.

(** [if not self.connection: await self.connect()] *)
Definition ensure_connected (self : DatabaseService) (w : World) : Outcome unit :=
  match self_connection self with
  | Some _ => MkOutcome (inl tt) self w []
  | None => connect self w
  end.

(** The tail shared by [execute_sql] and [execute_multiple_sql]. *)
Definition run_formatted (self : DatabaseService) (formatted : str) (w : World)
  : Outcome (list ExecutionRecord) :=
  let o := ensure_connected self w in
  match value o with
  | inr e => MkOutcome (inr e) (self_after o) (world_after o) []
  | inl _ =>
      let st := execute_multiple_sql_code connect_plain read_sql_query
                  formatted (self_connection (self_after o)) (world_after o) in
      MkOutcome (inl (results st)) (self_after o) (world st) (submitted st)
  end.


(** [DatabaseService.execute_multiple_sql] *)
Definition execute_multiple_sql (self : DatabaseService) (sql_queries : list str)
    (w : World) : Outcome (list ExecutionRecord) :=
  let formatted_queries :=
    map (fun query =>
           if negb (starts_with (lit "```") (strip query))
           then fenced query else query) sql_queries in
  let combined_queries := join [nl; nl] formatted_queries in
  run_formatted self combined_queries w.

(** [DatabaseService.validate_sql] *)
Definition validate_sql (sql_query : str) : bool :=
  let (is_valid, message) := validate_sql_query sql_query in is_valid.


End Callers.

(** A server for examples: it always connects, and closing never
    raises. *)
Definition local_server (kw : kwargs) (w : unit)
  : (option unit * option unit) * unit := ((Some tt, Some tt), w).

Definition quiet_close (c : unit) (w : unit) : option str * unit := (None, w).


Definition connected_service : DatabaseService unit unit :=
  MkService (MkSettings (lit "localhost,1433") (lit "master") (lit "sql"))
            (Some tt) (Some tt).

(** ** What the properties below speak of *)

(** Equality of two texts up to the case of their letters. *)
Definition same_word (a b : str) : Prop := upper a = upper b.

(** Every character. *)
Definition all_chars : list ascii := map ascii_of_nat (seq 0 256).

Definition spaces (s : str) : Prop := forallb is_space s = true.

(** [s] begins with the word SELECT, in any case: the keyword, then the
    end of the text or a character that cannot continue a word. *)
Definition select_shape (s : str) : Prop :=
  exists w rest,
    s = w ++ rest /\ same_word w (lit "SELECT") /\ word_side rest = false.

(** [s] begins with a common table expression, [WITH ... AS (]: the
    keyword WITH, white space, any text on one line, white space, the
    keyword AS, optional white space, an opening parenthesis. *)
Definition cte_shape (s : str) : Prop :=
  exists w s1 mid s2 a s3 rest,
    s = w ++ s1 ++ mid ++ s2 ++ a ++ s3 ++ "("%char :: rest
    /\ same_word w (lit "WITH")
    /\ s1 <> [] /\ spaces s1
    /\ forallb (fun c => negb (chr_eqb c nl)) mid = true
    /\ s2 <> [] /\ spaces s2
    /\ same_word a (lit "AS")
    /\ spaces s3.

(** A statement the executor's own validator accepts. *)
Definition valid_statement (q : str) : Prop := fst (validate_sql_query q) = true.

(** What the record of the block at position [k] (counted from 0) must
    be: its query is the cleaned block, and a block that cleans to
    nothing is reported, not dropped. *)
Definition record_of_block (k : nat) (block : str) (rec : ExecutionRecord) : Prop :=
  r_query rec = clean_sql_query (strip block)
  /\ (clean_sql_query (strip block) = [] ->
      r_status rec = validation_error
      /\ r_result rec = lit "Empty query found in code block #" ++ str_of_nat (k + 1)).


(** [matches f r p q]: the pattern [r] can consume the text from the
    position [p] to the position [q].  The matcher [run] is checked
    against this reading in [run_correct]. *)
Fixpoint matches (f : flags) (r : re) (p q : cursor) : Prop :=
  match r with
  | Emp => q = p
  | Chr a =>
      exists c s', ahead p = c :: s' /\ atom_ok f a c = true
                   /\ q = Cursor (c :: behind p) s'
  | Cat r1 r2 => exists m, matches f r1 p m /\ matches f r2 m q
  | Alt r1 r2 => matches f r1 p q \/ matches f r2 p q
  | Star _ a =>
      exists pre post, ahead p = pre ++ post /\ forallb (atom_ok f a) pre = true
                       /\ q = Cursor (rev pre ++ behind p) post
  | Bol => q = p /\ at_bol f p = true
  | Eol => q = p /\ at_eol f p = true
  | WordB => q = p /\ at_wordb p = true
  | NotAhead r1 => q = p /\ ~ (exists q', matches f r1 p q')
  | NotBehind a =>
      q = p /\ match behind p with
               | c :: _ => atom_ok f a c = false
               | [] => True
               end
  | Group _ r1 => matches f r1 p q
  end.

(** A pattern matches somewhere in the text ahead of a position. *)
Definition matches_within (f : flags) (r : re) (b s : str) : Prop :=
  exists pre post q, s = pre ++ post /\ matches f r (Cursor (rev pre ++ b) post) q.

(** Everything one [validate_query] call collects, in the order it is
    collected, once the performance check has returned [perf]. *)
Definition collected (config : Config) (query : str)
    (perf : list GuardrailViolation) : list GuardrailViolation :=
  _check_security query ++ _check_safety query ++ perf ++ _check_format query
  ++ (if validate_tables config then _check_schema config query else []).

(** The check families in the order [validate_query] runs them. *)
Definition family_rank (t : GuardrailViolationType) : nat :=
  match t with
  | SECURITY => 0
  | SAFETY => 1
  | PERFORMANCE => 2
  | FORMAT => 3
  | SCHEMA => 4
  | COMPLEXITY => 5
  end.

Definition rank (v : GuardrailViolation) : nat := family_rank (violation_type v).

(** A list of violations runs through the families in that order. *)
Definition family_sorted (l : list GuardrailViolation) : Prop :=
  StronglySorted (fun a b => rank a <= rank b) l.

(** Every entry with property [P] stands before every entry with [Q]. *)
Definition all_before (P Q : GuardrailViolation -> bool)
    (l : list GuardrailViolation) : Prop :=
  forall i j a b, nth_error l i = Some a -> nth_error l j = Some b ->
                  P a = true -> Q b = true -> i < j.

Definition is_schema (v : GuardrailViolation) : bool :=
  match violation_type v with SCHEMA => true | _ => false end.

Definition is_format (v : GuardrailViolation) : bool :=
  match violation_type v with FORMAT => true | _ => false end.







(** The whole-word [TOP <digits>] test that guards the check. *)
Definition has_top (normalized : str) : bool :=
  found (re_search no_flags (compile (lit "\bTOP\s+\d+\b")) normalized).

(** The risk levels that the enumeration marks "Blocks execution". *)
Definition risk_blocks (l : RiskLevel) : bool :=
  match l with CRITICAL | HIGH => true | _ => false end.

(** A violation as the checks write them: it blocks exactly when its
    level is CRITICAL or HIGH, its level is not INFO and its type is not
    COMPLEXITY. *)
Definition as_written (v : GuardrailViolation) : bool :=
  Bool.eqb (blocks_execution v) (risk_blocks (risk_level v))
  && match risk_level v with INFO => false | _ => true end
  && match violation_type v with COMPLEXITY => false | _ => true end.

(** The records of the statements that reached the database. *)
Definition was_run (r : ExecutionRecord) : bool :=
  match r_status r with
  | success | json_error | execution_error => true
  | _ => false
  end.

(** The optional keys of a record against its status: "row_count",
    "column_count" and "columns" come with [success] and [json_error]
    only, "column_info" with [json_error] only, and "column_count" is the
    length of "columns". *)
Definition keys_fit_status (r : ExecutionRecord) : Prop :=
  r_column_count r = option_map (@List.length str) (r_columns r)
  /\ (r_row_count r <> None <-> r_status r = success \/ r_status r = json_error)
  /\ (r_columns r <> None <-> r_status r = success \/ r_status r = json_error)
  /\ (r_column_info r <> None <-> r_status r = json_error).

(** [s] begins with the word [kw], in any case: the keyword, then the
    end of the text or a character that cannot continue a word. *)
Definition begins_with_word (kw s : str) : Prop :=
  exists w rest, s = w ++ rest /\ same_word w kw /\ word_side rest = false.

(** A configuration that allows ten characters. *)
Definition short_config : Config :=
  MkConfig 10000 1000 5000 5 3 10 30 false false true true false
    (known_tables _default_config).




(** A text without a backtick. *)
Definition no_backtick (s : str) : Prop := ~ In "`"%char s.


(** * Properties *)

Unset Implicit Arguments.

(** ** The patterns *)

(** Each pattern of the sources is read in full: none falls back on
    [Never]. *)
Example patterns_are_read : forallb readable patterns_in_use = true.
Proof. vm_compute. reflexivity. Qed.

(** Greedy and lazy repetition, anchors under MULTILINE, look-ahead and
    look-behind, on the cleaner's own example. *)
Example sub_examples :
  re_sub no_flags (compile (lit "--.*?(\n|$)")) (lit " ") (lit "SELECT 1 -- x")
  = lit "SELECT 1  "
  /\ erase f_M (lit "^#+\s*.*$") (lit "## SQL Query" ++ nl :: lit "SELECT 1")
     = nl :: lit "SELECT 1"
  /\ erase f_IM (lit "^\s*(?!--).*\b(?:This|That|These|Those)\s+.*(?<!;)\s*$")
       (lit "this one;" ++ nl :: lit "that one")
     = lit "this one;" ++ [nl]
  /\ re_findall1 f_S (compile (lit "```\s*sql\s*(.*?)```")) (lit "```sql a``` ```SQL b``` ```sql```")
     = [lit "a"; []]
  /\ re_split f_I (compile (lit "\)\s*,?\s*(?:SELECT|WITH)\b")) (lit "(a) select b) , with c")
     = [lit "(a"; lit " b"; lit " c"].
Proof. repeat split; vm_compute; reflexivity. Qed.

(** ** The matcher against the declarative reading *)

Lemma star_loop_sound :
  forall (A : Type) f g a (k : cursor -> option A) s b x,
    star_loop f g a k b s = Some x ->
    exists pre post,
      s = pre ++ post /\ forallb (atom_ok f a) pre = true
      /\ k (Cursor (rev pre ++ b) post) = Some x.
Proof.
  induction s as [|c s IH]; simpl; intros b x H.
  - exists [], []. auto.
  - destruct (atom_ok f a c) eqn:E.
    + assert (Hrec : forall y, star_loop f g a k (c :: b) s = Some y ->
                exists pre post, c :: s = pre ++ post
                  /\ forallb (atom_ok f a) pre = true
                  /\ k (Cursor (rev pre ++ b) post) = Some y).
      { intros y Hy. apply IH in Hy. destruct Hy as (pre & post & -> & Hp & Hk).
        exists (c :: pre), post. simpl. rewrite E, Hp, <- app_assoc. auto. }
      destruct g.
      * destruct (star_loop f true a k (c :: b) s) eqn:E2.
        -- inversion H; subst. apply Hrec; reflexivity.
        -- exists [], (c :: s). auto.
      * destruct (k (Cursor b (c :: s))) eqn:E2.
        -- inversion H; subst. exists [], (c :: s). auto.
        -- apply Hrec; assumption.
    + exists [], (c :: s). auto.
Qed.

Lemma star_loop_complete :
  forall (A : Type) f g a (k : cursor -> option A) pre post b,
    forallb (atom_ok f a) pre = true ->
    k (Cursor (rev pre ++ b) post) <> None ->
    star_loop f g a k b (pre ++ post) <> None.
Proof.
  induction pre as [|c pre IH]; simpl; intros post b Hp Hk.
  - destruct post as [|c s]; simpl; auto.
    destruct (atom_ok f a c); auto.
    destruct g.
    + destruct (star_loop f true a k (c :: b) s); [discriminate | assumption].
    + destruct (k (Cursor b (c :: s))); [discriminate | contradiction].
  - apply andb_true_iff in Hp. destruct Hp as [Hc Hp]. rewrite Hc.
    rewrite <- app_assoc in Hk. simpl in Hk.
    specialize (IH post (c :: b) Hp Hk).
    destruct g.
    + destruct (star_loop f true a k (c :: b) (pre ++ post));
        [discriminate | contradiction].
    + destruct (k (Cursor b (c :: pre ++ post))); [discriminate | assumption].
Qed.

Lemma cursor_eta : forall p : cursor, Cursor (behind p) (ahead p) = p.
Proof. destruct p; reflexivity. Qed.

Lemma run_correct :
  forall f r,
    (forall (A : Type) p cs (k : cursor -> captures -> option A) x,
        run f r p cs k = Some x ->
        exists q cs', matches f r p q /\ k q cs' = Some x)
    /\
    (forall (A : Type) p cs (k : cursor -> captures -> option A) q,
        matches f r p q -> (forall cs', k q cs' <> None) ->
        run f r p cs k <> None).
Proof.
  intros f. induction r as [ | a | r1 IH1 r2 IH2 | r1 IH1 r2 IH2 | g a | | | | r1 IH1 | a | n r1 IH1 ];
    split; intros A p cs k; simpl.
  - (* Emp *) intros x H. exists p, cs. auto.
  - intros q -> Hk. apply Hk.
  - (* Chr *) intros x H. destruct (ahead p) as [|c s'] eqn:E; [discriminate|].
    destruct (atom_ok f a c) eqn:Ea; [|discriminate].
    exists (Cursor (c :: behind p) s'), cs. split; [|assumption].
    exists c, s'. auto.
  - intros q (c & s' & E & Ea & ->) Hk. rewrite E, Ea. apply Hk.
  - (* Cat *) intros x H. destruct IH1 as [S1 _]. destruct IH2 as [S2 _].
    apply S1 in H. destruct H as (m & cs1 & M1 & H).
    apply S2 in H. destruct H as (q & cs2 & M2 & H).
    exists q, cs2. split; [exists m; auto | assumption].
  - intros q (m & M1 & M2) Hk. destruct IH1 as [_ C1]. destruct IH2 as [_ C2].
    apply C1 with (q := m); [assumption|]. intros cs'. apply C2 with (q := q); assumption.
  - (* Alt *) intros x H. destruct IH1 as [S1 _]. destruct IH2 as [S2 _].
    destruct (run f r1 p cs k) eqn:E.
    + inversion H; subst. apply S1 in E. destruct E as (q & cs' & M & Hk).
      exists q, cs'. auto.
    + apply S2 in H. destruct H as (q & cs' & M & Hk). exists q, cs'. auto.
  - intros q M Hk. destruct IH1 as [_ C1]. destruct IH2 as [_ C2].
    destruct (run f r1 p cs k) eqn:E; [discriminate|].
    destruct M as [M|M].
    + exfalso. apply (C1 A p cs k q M Hk). assumption.
    + apply C2 with (q := q); assumption.
  - (* Star *) intros x H. apply star_loop_sound in H.
    destruct H as (pre & post & E & Hp & Hk).
    exists (Cursor (rev pre ++ behind p) post), cs. split; [|assumption].
    exists pre, post. auto.
  - intros q (pre & post & E & Hp & ->) Hk. rewrite E.
    apply star_loop_complete; [assumption | apply Hk].
  - (* Bol *) intros x H. destruct (at_bol f p) eqn:E; [|discriminate].
    exists p, cs. auto.
  - intros q (-> & E) Hk. rewrite E. apply Hk.
  - (* Eol *) intros x H. destruct (at_eol f p) eqn:E; [|discriminate].
    exists p, cs. auto.
  - intros q (-> & E) Hk. rewrite E. apply Hk.
  - (* WordB *) intros x H. destruct (at_wordb p) eqn:E; [|discriminate].
    exists p, cs. auto.
  - intros q (-> & E) Hk. rewrite E. apply Hk.
  - (* NotAhead *) intros x H. destruct IH1 as [_ C1].
    destruct (run f r1 p cs (fun _ _ => Some tt)) eqn:E; [discriminate|].
    exists p, cs. split; [|assumption]. split; [reflexivity|].
    intros (q' & M). apply (C1 unit p cs (fun _ _ => Some tt) q' M); [discriminate | assumption].
  - intros q (-> & N) Hk. destruct IH1 as [S1 _].
    destruct (run f r1 p cs (fun _ _ => Some tt)) eqn:E; [|apply Hk].
    exfalso. apply N. apply S1 in E. destruct E as (q' & _ & M & _). exists q'; assumption.
  - (* NotBehind *) intros x H. exists p, cs.
    destruct (behind p) as [|c b]; [auto|].
    destruct (atom_ok f a c) eqn:E; [discriminate | auto].
  - intros q (-> & N) Hk. destruct (behind p) as [|c b]; [apply Hk|].
    rewrite N. apply Hk.
  - (* Group *) intros x H. destruct IH1 as [S1 _]. apply S1 in H.
    destruct H as (q & cs' & M & Hk). exists q, ((n, between_cursors p q) :: cs'). auto.
  - intros q M Hk. destruct IH1 as [_ C1]. apply C1 with (q := q); [assumption|].
    intros cs'. apply Hk.
Qed.

Lemma match_here_sound :
  forall f r p h,
    match_here f r false p = Some h ->
    h_start h = p /\ matches f r p (h_end h).
Proof.
  intros f r p h H. unfold match_here in H.
  apply (proj1 (run_correct f r)) in H.
  destruct H as (q & cs' & M & H). simpl in H. inversion H; subst. auto.
Qed.

Lemma match_here_complete :
  forall f r p q, matches f r p q -> match_here f r false p <> None.
Proof.
  intros f r p q M. unfold match_here.
  apply (proj2 (run_correct f r)) with (q := q); [assumption|].
  intros cs'. simpl. discriminate.
Qed.

Lemma search_from_sound :
  forall f r s b h, search_from f r b s = Some h -> matches_within f r b s.
Proof.
  induction s as [|c s IH]; intros b h H; simpl in H.
  - destruct (match_here f r false (Cursor b [])) eqn:E; [|discriminate].
    apply match_here_sound in E. destruct E as [_ M].
    exists [], [], (h_end h0). auto.
  - destruct (match_here f r false (Cursor b (c :: s))) eqn:E.
    + apply match_here_sound in E. destruct E as [_ M].
      exists [], (c :: s), (h_end h0). auto.
    + apply IH in H. destruct H as (pre & post & q & -> & M).
      exists (c :: pre), post, q. simpl. rewrite <- app_assoc. auto.
Qed.

Lemma search_from_complete :
  forall f r s b, matches_within f r b s -> search_from f r b s <> None.
Proof.
  induction s as [|c s IH]; intros b (pre & post & q & E & M); simpl.
  - destruct pre; [|discriminate]. simpl in *. subst post.
    pose proof (match_here_complete f r _ _ M) as H.
    destruct (match_here f r false (Cursor b [])); [discriminate | contradiction].
  - destruct (match_here f r false (Cursor b (c :: s))) eqn:E1; [discriminate|].
    destruct pre as [|c' pre]; simpl in *.
    + subst post. exfalso. apply (match_here_complete f r _ _ M). assumption.
    + inversion E; subst. apply IH. exists pre, post, q.
      rewrite <- app_assoc in M. auto.
Qed.

Lemma found_true : forall o, found o = true <-> o <> None.
Proof. destruct o; simpl; split; intros; congruence. Qed.

Lemma search_iff :
  forall f r s, found (re_search f r s) = true <-> matches_within f r [] s.
Proof.
  intros f r s. unfold re_search. rewrite found_true. split.
  - destruct (search_from f r [] s) eqn:E; [|congruence].
    intros _. eapply search_from_sound; eassumption.
  - apply search_from_complete.
Qed.

(** Whatever [r1] matches, [r2] matches from the same position: then a
    text where [r1] is found is a text where [r2] is found. *)
Lemma search_weaken :
  forall f r1 r2 s,
    (forall p q, matches f r1 p q -> exists q', matches f r2 p q') ->
    found (re_search f r1 s) = true -> found (re_search f r2 s) = true.
Proof.
  intros f r1 r2 s Hinc H. apply search_iff in H. apply search_iff.
  destruct H as (pre & post & q & E & M).
  destruct (Hinc _ _ M) as (q' & M'). exists pre, post, q'. auto.
Qed.

Lemma compile_top_guard :
  compile (lit "\bTOP\s+\d+\b")
  = Cat WordB (Cat (Chr (ALit "T")) (Cat (Chr (ALit "O")) (Cat (Chr (ALit "P"))
      (Cat (Cat (Chr (ASet false [CSpace])) (Star true (ASet false [CSpace])))
           (Cat (Cat (Chr (ASet false [CDigit])) (Star true (ASet false [CDigit])))
                WordB))))).
Proof. vm_compute. reflexivity. Qed.

Lemma compile_top_value :
  compile (lit "TOP\s+(\d+)")
  = Cat (Chr (ALit "T")) (Cat (Chr (ALit "O")) (Cat (Chr (ALit "P"))
      (Cat (Cat (Chr (ASet false [CSpace])) (Star true (ASet false [CSpace])))
           (Group 1 (Cat (Chr (ASet false [CDigit])) (Star true (ASet false [CDigit]))))))).
Proof. vm_compute. reflexivity. Qed.

(** The guard [\bTOP\s+\d+\b] is a special case of the pattern
    [TOP\s+(\d+)] that reads the value. *)
Lemma top_guard_included :
  forall p q,
    matches no_flags (compile (lit "\bTOP\s+\d+\b")) p q ->
    exists q', matches no_flags (compile (lit "TOP\s+(\d+)")) p q'.
Proof.
  intros p q. rewrite compile_top_guard, compile_top_value.
  intros (p0 & [-> _] & p1 & HT & p2 & HO & p3 & HP & p4 & HS & p5 & HD & _).
  exists p5. exists p1. split; [exact HT|].
  exists p2. split; [exact HO|].
  exists p3. split; [exact HP|].
  exists p4. split; [exact HS|]. exact HD.
Qed.

Lemma top_value_defined :
  forall normalized, has_top normalized = true ->
                     exists v, top_value_of normalized = Ok v.
Proof.
  intros s H. unfold has_top in H.
  apply search_weaken with (r2 := compile (lit "TOP\s+(\d+)")) in H;
    [|apply top_guard_included].
  unfold top_value_of.
  destruct (re_search no_flags (compile (lit "TOP\s+(\d+)")) s); [|discriminate].
  eexists; reflexivity.
Qed.

(** ** The guardrail engine *)

Lemma check_performance_returns :
  forall config query, exists perf, _check_performance config query = Ok perf.
Proof.
  intros config query. unfold _check_performance.
  fold (has_top (upper (_normalize_query query))).
  destruct (has_top (upper (_normalize_query query))) eqn:E.
  - destruct (top_value_defined _ E) as (v & ->). simpl. eexists; reflexivity.
  - simpl. eexists; reflexivity.
Qed.

Lemma validate_query_inv :
  forall config now query r,
    validate_query config now query = Ok r ->
    exists perf,
      _check_performance config query = Ok perf
      /\ violations r = filter blocks_execution (collected config query perf)
      /\ warnings r = filter (fun v => negb (blocks_execution v))
                             (collected config query perf)
      /\ is_safe r = (List.length (violations r) =? 0).
Proof.
  intros config now query r H.
  unfold validate_query, collect_violations in H.
  destruct (_check_performance config query) as [perf|e] eqn:E; simpl in H;
    [|discriminate].
  exists perf. split; [reflexivity|].
  assert (Hall :
    (if validate_tables config
     then (((_check_security query ++ _check_safety query) ++ perf)
             ++ _check_format query) ++ _check_schema config query
     else ((_check_security query ++ _check_safety query) ++ perf)
            ++ _check_format query)
    = collected config query perf).
  { unfold collected. destruct (validate_tables config);
      rewrite <- ?app_assoc, ?app_nil_r; reflexivity. }
  rewrite Hall in H. inversion H; subst; simpl. auto.
Qed.


(** C4.  In the result of [validate_query], [is_safe] holds exactly when
    the list of violations is empty, every violation blocks execution and
    no warning does. *)
Theorem blocking_invariant :
  forall config now query r,
    validate_query config now query = Ok r ->
    (is_safe r = true <-> violations r = [])
    /\ Forall (fun v => blocks_execution v = true) (violations r)
    /\ Forall (fun v => blocks_execution v = false) (warnings r).
Proof.
  intros config now query r H.
  destruct (validate_query_inv _ _ _ _ H) as (perf & _ & Hv & Hw & Hs).
  split; [|split].
  - rewrite Hs. destruct (violations r); simpl; split; intros; congruence.
  - rewrite Hv. apply Forall_forall. intros v Hin.
    apply filter_In in Hin. tauto.
  - rewrite Hw. apply Forall_forall. intros v Hin.
    apply filter_In in Hin. destruct Hin as [_ Hn].
    destruct (blocks_execution v); [discriminate | reflexivity].
Qed.

Lemma blocking_invariant_witness :
  exists r,
    validate_query _default_config (lit "2024-01-01T00:00:00")
      (lit "SELECT * FROM customer_information") = Ok r
    /\ (is_safe r = true <-> violations r = [])
    /\ Forall (fun v => blocks_execution v = true) (violations r)
    /\ Forall (fun v => blocks_execution v = false) (warnings r).
Proof.
  eexists. split; [vm_compute; reflexivity|].
  apply (blocking_invariant _default_config (lit "2024-01-01T00:00:00")
           (lit "SELECT * FROM customer_information")).
  vm_compute; reflexivity.
Defined.

(** *** Order of the families *)

Lemma sorted_filter :
  forall (p : GuardrailViolation -> bool) l,
    family_sorted l -> family_sorted (filter p l).
Proof.
  unfold family_sorted. induction 1 as [|a l Hs IH Hf]; simpl.
  - constructor.
  - destruct (p a); [|assumption]. constructor; [assumption|].
    apply Forall_forall. intros x Hin. apply filter_In in Hin.
    rewrite Forall_forall in Hf. apply Hf. tauto.
Qed.

(** A list within one family is sorted. *)
Lemma sorted_uniform :
  forall n l, Forall (fun v => rank v = n) l -> family_sorted l.
Proof.
  unfold family_sorted. induction 1 as [|a l Ha Hl IH]; constructor; [assumption|].
  apply Forall_forall. intros x Hin. rewrite Forall_forall in Hl.
  rewrite Ha, (Hl x Hin). apply le_n.
Qed.

Lemma sorted_app :
  forall n l1 l2,
    family_sorted l1 -> family_sorted l2 ->
    Forall (fun v => rank v <= n) l1 -> Forall (fun v => n <= rank v) l2 ->
    family_sorted (l1 ++ l2).
Proof.
  unfold family_sorted. intros n l1 l2 H1 H2 B1 B2.
  induction H1 as [|a l Hs IH Hf]; simpl; [assumption|].
  inversion B1; subst. constructor; [auto|].
  apply Forall_app. split; [assumption|].
  apply Forall_forall. intros x Hin. rewrite Forall_forall in B2.
  specialize (B2 x Hin). lia.
Qed.

Lemma sorted_nth :
  forall l i j a b,
    family_sorted l -> nth_error l i = Some a -> nth_error l j = Some b ->
    i < j -> rank a <= rank b.
Proof.
  unfold family_sorted. induction l as [|x l IH]; intros i j a b Hs Hi Hj Hij.
  - destruct i; discriminate.
  - inversion Hs; subst. destruct j as [|j]; [lia|].
    destruct i as [|i]; simpl in *.
    + inversion Hi; subst. rewrite Forall_forall in H2. apply H2.
      eapply nth_error_In; eassumption.
    + apply (IH i j); auto. lia.
Qed.

Ltac one_family :=
  repeat match goal with
         | |- Forall _ (_ ++ _) => apply Forall_app; split
         | |- Forall _ (if ?c then _ else _) => destruct c
         | |- Forall _ [] => constructor
         | |- Forall _ (_ :: _) => constructor; [reflexivity|]
         end.

Lemma security_family :
  forall query, Forall (fun v => rank v = 0) (_check_security query).
Proof.
  intros query. unfold _check_security. apply Forall_app. split.
  - apply Forall_flat_map, Forall_forall. intros [pattern msg] _.
    cbv beta iota. one_family.
  - one_family.
Qed.

(** The safety check ends with an advisory of the performance family. *)
Lemma safety_family :
  forall query,
    exists l1 l2, _check_safety query = l1 ++ l2
                  /\ Forall (fun v => rank v = 1) l1
                  /\ Forall (fun v => rank v = 2) l2.
Proof.
  intros query. unfold _check_safety. rewrite app_assoc.
  eexists _, _. split; [reflexivity|]. split.
  - apply Forall_app. split.
    + apply Forall_flat_map, Forall_forall. intros [op description] _.
      cbv beta iota. one_family.
    + one_family.
  - one_family.
Qed.

Lemma performance_family :
  forall config query perf,
    _check_performance config query = Ok perf ->
    Forall (fun v => rank v = 2) perf.
Proof.
  intros config query perf H. unfold _check_performance in H.
  destruct (found (re_search no_flags (compile (lit "\bTOP\s+\d+\b"))
                     (upper (_normalize_query query)))).
  - destruct (top_value_of (upper (_normalize_query query))); simpl in H;
      [|discriminate].
    inversion H; subst. one_family.
  - simpl in H. inversion H; subst. one_family.
Qed.

Lemma format_family :
  forall query, Forall (fun v => rank v = 3) (_check_format query).
Proof. intros query. unfold _check_format. one_family. Qed.

Lemma schema_family :
  forall config query, Forall (fun v => rank v = 4) (_check_schema config query).
Proof.
  intros config query. unfold _check_schema.
  apply Forall_flat_map, Forall_forall. intros table _. cbv beta zeta. one_family.
Qed.

Lemma block_app :
  forall m n l rest,
    m <= n ->
    Forall (fun v => rank v = n) l ->
    family_sorted rest /\ Forall (fun v => n <= rank v) rest ->
    family_sorted (l ++ rest) /\ Forall (fun v => m <= rank v) (l ++ rest).
Proof.
  intros m n l rest Hmn Hl [Hs Hr]. split.
  - apply (sorted_app n); auto.
    + eapply sorted_uniform; eassumption.
    + eapply Forall_impl; [|exact Hl]. simpl. intros v ->. apply le_n.
  - apply Forall_app. split.
    + eapply Forall_impl; [|exact Hl]. simpl. intros v ->. assumption.
    + eapply Forall_impl; [|exact Hr]. simpl. intros v Hv. lia.
Qed.

Lemma collected_sorted :
  forall config query perf,
    _check_performance config query = Ok perf ->
    family_sorted (collected config query perf).
Proof.
  intros config query perf Hp. unfold collected.
  destruct (safety_family query) as (s1 & s2 & -> & Hs1 & Hs2).
  rewrite <- app_assoc.
  apply (block_app 0 0); [lia | apply security_family |].
  apply (block_app 0 1); [lia | exact Hs1 |].
  apply (block_app 1 2); [lia | exact Hs2 |].
  apply (block_app 2 2); [lia | eapply performance_family; eassumption |].
  apply (block_app 2 3); [lia | apply format_family |].
  assert (Hsch : Forall (fun v => rank v = 4)
                   (if validate_tables config then _check_schema config query else [])).
  { destruct (validate_tables config); [apply schema_family | constructor]. }
  split.
  - eapply sorted_uniform; eassumption.
  - eapply Forall_impl; [|exact Hsch]. simpl. intros v ->. lia.
Qed.

Lemma sorted_all_before :
  forall l, family_sorted l -> all_before is_format is_schema l.
Proof.
  intros l Hs i j a b Hi Hj Ha Hb.
  assert (Ra : rank a = 3).
  { unfold is_format in Ha. unfold rank. destruct (violation_type a); try discriminate; reflexivity. }
  assert (Rb : rank b = 4).
  { unfold is_schema in Hb. unfold rank. destruct (violation_type b); try discriminate; reflexivity. }
  destruct (Nat.lt_trichotomy i j) as [H|[H|H]]; [assumption | |].
  - subst j. rewrite Hi in Hj. inversion Hj; subst. lia.
  - pose proof (sorted_nth _ _ _ _ _ Hs Hj Hi H). lia.
Qed.

(** C3, as the code has it.  The violations of one [validate_query] call
    are collected in the order Security, Safety, Performance, Format,
    Schema (Schema last, and only under [validate_tables]); both
    returned lists keep that order, so every Format violation stands
    before every Schema violation. *)
Theorem family_order :
  forall config now query r,
    validate_query config now query = Ok r ->
    (exists perf,
        _check_performance config query = Ok perf
        /\ violations r
           = filter blocks_execution
               (_check_security query ++ _check_safety query ++ perf
                  ++ _check_format query
                  ++ (if validate_tables config then _check_schema config query else []))
        /\ warnings r
           = filter (fun v => negb (blocks_execution v))
               (_check_security query ++ _check_safety query ++ perf
                  ++ _check_format query
                  ++ (if validate_tables config then _check_schema config query else [])))
    /\ family_sorted (violations r) /\ family_sorted (warnings r)
    /\ all_before is_format is_schema (violations r)
    /\ all_before is_format is_schema (warnings r).
Proof.
  intros config now query r H.
  destruct (validate_query_inv _ _ _ _ H) as (perf & Hp & Hv & Hw & _).
  pose proof (collected_sorted _ _ _ Hp) as Hs.
  assert (Sv : family_sorted (violations r)) by (rewrite Hv; apply sorted_filter, Hs).
  assert (Sw : family_sorted (warnings r)) by (rewrite Hw; apply sorted_filter, Hs).
  split; [exists perf; auto|].
  repeat split; auto using sorted_all_before.
Qed.

Lemma family_order_witness :
  exists r,
    validate_query _default_config (lit "2024-01-01T00:00:00")
      (lit "SELECT x FROM t (") = Ok r
    /\ family_sorted (violations r)
    /\ all_before is_format is_schema (violations r).
Proof.
  eexists. split; [vm_compute; reflexivity|].
  pose proof (family_order _default_config (lit "2024-01-01T00:00:00")
                (lit "SELECT x FROM t (") _ ltac:(vm_compute; reflexivity)) as H.
  split; apply H.
Defined.

(** C3 as stated fails: on [SELECT x FROM t (] the Format violation
    (unbalanced parentheses) is returned before the Schema violation
    (unknown table T). *)
Lemma schema_before_format_fails :
  exists r,
    validate_query _default_config (lit "2024-01-01T00:00:00")
      (lit "SELECT x FROM t (") = Ok r
    /\ ~ all_before is_schema is_format (violations r).
Proof.
  eexists. split; [vm_compute; reflexivity|].
  intros H. specialize (H 1 0 _ _ eq_refl eq_refl eq_refl eq_refl). lia.
Qed.

(** *** Destructive verbs *)

Lemma unsafe_of_blocking :
  forall config now query r v perf,
    validate_query config now query = Ok r ->
    _check_performance config query = Ok perf ->
    In v (collected config query perf) -> blocks_execution v = true ->
    is_safe r = false.
Proof.
  intros config now query r v perf H Hp Hin Hb.
  destruct (validate_query_inv _ _ _ _ H) as (perf' & Hp' & Hv & _ & Hs).
  rewrite Hp in Hp'. inversion Hp'; subst perf'.
  assert (Hv' : In v (violations r)) by (rewrite Hv; apply filter_In; auto).
  rewrite Hs. destruct (violations r); [contradiction | reflexivity].
Qed.






(** *** quick_validate *)

(** C2 fails on the code: for [SELECT * FROM nonexistent_table] the
    engine's verdict is unsafe (one HIGH schema violation, none
    CRITICAL), and [quick_validate] answers [True] with a message that
    is neither of the two the claim allows. *)
Lemma quick_validate_allows_blocked :
  quick_validate (lit "2024-01-01T00:00:00") (lit "SELECT * FROM nonexistent_table")
  = Ok (true, lit "Query has warnings but is allowed")
  /\ exists r,
       validate_query _default_config (lit "2024-01-01T00:00:00")
         (lit "SELECT * FROM nonexistent_table") = Ok r
       /\ is_safe r = false
       /\ map message (violations r) = [lit "Unknown table referenced: NONEXISTENT_TABLE"]
       /\ get_critical_violations r = [].
Proof.
  split; [vm_compute; reflexivity|].
  eexists. split; [vm_compute; reflexivity|].
  repeat split; vm_compute; reflexivity.
Qed.

(** *** The TOP value check *)











(** ** The batch executor *)

Section ExecutorFacts.

Variables World Connection : Type.
Variable connect_to_sql_server : World -> option Connection * World.
Variable read_sql_query : str -> Connection -> World -> (DataFrame + str) * World.

Lemma loop_body_submitted :
  forall c (st : LoopState World) i query q,
    In q (submitted (loop_body read_sql_query c st i query)) ->
    In q (submitted st) \/ valid_statement q.
Proof.
  intros c st i query q. unfold loop_body.
  destruct (is_empty (clean_sql_query (strip query))); simpl; [auto|].
  destruct (validate_sql_query (clean_sql_query (strip query))) as [ok msg] eqn:E.
  destruct ok; simpl; [|auto].
  destruct (read_sql_query (clean_sql_query (strip query)) c (world st)) as [o w].
  simpl. intros H. apply in_app_or in H. destruct H as [H|[<-|[]]]; [auto|].
  right. unfold valid_statement. rewrite E. reflexivity.
Qed.

Lemma run_loop_submitted :
  forall c queries (st : LoopState World) i q,
    In q (submitted (run_loop read_sql_query c st i queries)) ->
    In q (submitted st) \/ valid_statement q.
Proof.
  intros c. induction queries as [|query rest IH]; intros st i q H; simpl in H.
  - auto.
  - apply IH in H. destruct H as [H|H]; [|auto].
    eapply loop_body_submitted; eassumption.
Qed.

(** C1, as the code has it.  The batch executor hands a statement to
    [pd.read_sql_query] only if its own validator [validate_sql_query]
    accepts it; the Guardrail Engine takes no part in the executor. *)
Theorem submitted_are_valid :
  forall sql_code connection w q,
    In q (submitted (execute_multiple_sql_code connect_to_sql_server
                       read_sql_query sql_code connection w)) ->
    fst (validate_sql_query q) = true.
Proof.
  intros sql_code connection w q. unfold execute_multiple_sql_code.
  destruct (match connection with
            | Some c => (Some c, w)
            | None => connect_to_sql_server w
            end) as [[c|] w']; simpl; [|contradiction].
  destruct (extract_queries sql_code) as [|q0 qs]; simpl; [contradiction|].
  intros H.
  change (In q (submitted (run_loop read_sql_query c (MkLoop w' [] []) 0 (q0 :: qs)))) in H.
  apply run_loop_submitted in H. destruct H as [[]|H]. exact H.
Qed.

End ExecutorFacts.

Lemma submitted_are_valid_witness :
  In (lit "SELECT * FROM nonexistent_table")
     (submitted (execute_multiple_sql_code no_server empty_db
                   unknown_table_response (Some tt) tt))
  /\ fst (validate_sql_query (lit "SELECT * FROM nonexistent_table")) = true.
Proof.
  assert (H : In (lit "SELECT * FROM nonexistent_table")
                (submitted (execute_multiple_sql_code no_server empty_db
                              unknown_table_response (Some tt) tt)))
    by (vm_compute; auto).
  split; [exact H|].
  exact (submitted_are_valid unit unit no_server empty_db
           unknown_table_response (Some tt) tt _ H).
Defined.

(** C1 as stated fails: the fenced statement
    [SELECT * FROM nonexistent_table] is handed to the database although
    the Guardrail Engine marks it unsafe (unknown table). *)
Lemma unsafe_statement_executed :
  exists q r,
    In q (submitted (execute_multiple_sql_code no_server empty_db
                       unknown_table_response (Some tt) tt))
    /\ validate_query _default_config (lit "2024-01-01T00:00:00") q = Ok r
    /\ is_safe r = false.
Proof.
  exists (lit "SELECT * FROM nonexistent_table"). eexists.
  split; [vm_compute; auto|]. split; vm_compute; reflexivity.
Qed.

Section Positional.

Variables World Connection : Type.
Variable connect_to_sql_server : World -> option Connection * World.
Variable read_sql_query : str -> Connection -> World -> (DataFrame + str) * World.

Lemma is_empty_true : forall s : str, is_empty s = true <-> s = [].
Proof. destruct s; simpl; split; intros; congruence. Qed.

Lemma loop_body_results :
  forall c (st : LoopState World) i query,
    exists rec,
      results (loop_body read_sql_query c st i query) = results st ++ [rec]
      /\ record_of_block i query rec.
Proof.
  intros c st i query. unfold loop_body, record_of_block.
  destruct (is_empty (clean_sql_query (strip query))) eqn:E.
  - apply is_empty_true in E. eexists. split; [reflexivity|].
    simpl. rewrite E. auto.
  - assert (N : clean_sql_query (strip query) <> []).
    { intros H. apply is_empty_true in H. congruence. }
    destruct (validate_sql_query (clean_sql_query (strip query))) as [ok msg].
    destruct ok; simpl.
    + destruct (read_sql_query (clean_sql_query (strip query)) c (world st)) as [o w].
      eexists. split; [reflexivity|]. split; [|contradiction].
      destruct o as [df|e]; [destruct (df_to_json df)|]; reflexivity.
    + eexists. split; [reflexivity|]. simpl. split; [reflexivity | contradiction].
Qed.

Lemma run_loop_results :
  forall c queries (st : LoopState World) i,
    exists recs,
      results (run_loop read_sql_query c st i queries) = results st ++ recs
      /\ List.length recs = List.length queries
      /\ forall k block,
           nth_error queries k = Some block ->
           exists rec, nth_error recs k = Some rec
                       /\ record_of_block (i + k) block rec.
Proof.
  intros c. induction queries as [|query rest IH]; intros st i; simpl.
  - exists []. rewrite app_nil_r. split; [reflexivity|]. split; [reflexivity|].
    intros [|k] block H; discriminate.
  - destruct (loop_body_results c st i query) as (rec & Hr & Hrec).
    destruct (IH (loop_body read_sql_query c st i query) (S i))
      as (recs & Hrs & Hlen & Hnth).
    exists (rec :: recs). split; [|split].
    + rewrite Hrs, Hr, <- app_assoc. reflexivity.
    + simpl. rewrite Hlen. reflexivity.
    + intros [|k] block H; simpl in H.
      * inversion H; subst. exists rec. rewrite Nat.add_0_r. auto.
      * destruct (Hnth k block H) as (rec' & Hn & Hb).
        exists rec'. split; [exact Hn|].
        replace (i + S k) with (S i + k) by lia. exact Hb.
Qed.

Lemma execute_with_queries :
  forall sql_code c w,
    extract_queries sql_code <> [] ->
    execute_multiple_sql_code connect_to_sql_server read_sql_query
      sql_code (Some c) w
    = run_loop read_sql_query c (MkLoop w [] []) 0 (extract_queries sql_code).
Proof.
  intros sql_code c w H. unfold execute_multiple_sql_code.
  destruct (extract_queries sql_code); [contradiction | reflexivity].
Qed.


End Positional.


(** The two records of that response: the statement run, and the empty
    block reported under its position. *)
Example two_block_records :
  map (fun r => (r_query r, r_result r, r_status r))
      (results (execute_multiple_sql_code no_server empty_db
                  two_block_response (Some tt) tt))
  = [ (lit "SELECT 1", lit "[]", success);
      ([], lit "Empty query found in code block #2", validation_error) ].
Proof. vm_compute. reflexivity. Qed.

(** ** The cleaner *)

Lemma lstrip_idempotent : forall s, lstrip (lstrip s) = lstrip s.
Proof.
  induction s as [|c s IH]; simpl; [reflexivity|].
  destruct (is_space c) eqn:E; [exact IH|]. simpl. rewrite E. reflexivity.
Qed.







(** ** The executor's validator *)

Lemma all_chars_complete : forall c, In c all_chars.
Proof.
  intros c. unfold all_chars. rewrite <- (ascii_nat_embedding c).
  apply in_map, in_seq. pose proof (nat_ascii_bounded c). lia.
Qed.

Lemma case_fold_table :
  forallb (fun x => forallb (fun c =>
     implb (chr_eqb (lower_chr x) (lower_chr c))
           (chr_eqb (upper_chr c) (upper_chr x))) all_chars) all_chars = true.
Proof. vm_compute. reflexivity. Qed.

(** A character accepted for a literal under IGNORECASE has the upper
    case of that literal. *)
Lemma lit_ok_upper :
  forall x c, lit_ok f_I x c = true -> upper_chr c = upper_chr x.
Proof.
  intros x c H. unfold lit_ok in H. simpl in H.
  pose proof case_fold_table as T. rewrite forallb_forall in T.
  specialize (T x (all_chars_complete x)). rewrite forallb_forall in T.
  specialize (T c (all_chars_complete c)). rewrite H in T. simpl in T.
  apply Ascii.eqb_eq. exact T.
Qed.

Lemma lstrip_length : forall s, List.length (lstrip s) <= List.length s.
Proof.
  induction s as [|x s IH]; simpl; [lia|].
  destruct (is_space x); simpl; lia.
Qed.

(** A left-stripped text has no run of white space at its start. *)
Lemma no_leading_spaces :
  forall n pre post,
    lstrip n = n -> n = pre ++ post -> forallb is_space pre = true -> pre = [].
Proof.
  intros n [|c pre] post Hn E Hp; [reflexivity|].
  simpl in Hp. apply andb_true_iff in Hp. destruct Hp as [Hc _].
  subst n. simpl in Hn. rewrite Hc in Hn.
  pose proof (lstrip_length (pre ++ post)) as L. rewrite Hn in L. simpl in L. lia.
Qed.

Lemma split_ws_words :
  forall s w,
    Forall (fun c => is_space c = false) w ->
    Forall (fun word => exists c rest, word = c :: rest /\ is_space c = false)
           (split_ws_aux w s).
Proof.
  assert (Hrev : forall w, w <> [] -> Forall (fun c => is_space c = false) w ->
                 exists c rest, rev w = c :: rest /\ is_space c = false).
  { intros w Hne Hw. apply Forall_rev in Hw.
    destruct (rev w) as [|c rest] eqn:E.
    - exfalso. apply Hne. rewrite <- (rev_involutive w), E. reflexivity.
    - inversion Hw; subst. eauto. }
  induction s as [|c s IH]; intros w Hw; simpl.
  - destruct w as [|x w]; [constructor|].
    constructor; [|constructor]. apply Hrev; [discriminate | assumption].
  - destruct (is_space c) eqn:E.
    + destruct w as [|x w]; [apply IH; constructor|].
      constructor; [apply Hrev; [discriminate | assumption] | apply IH; constructor].
    + apply IH. constructor; assumption.
Qed.

Lemma normalized_no_leading_space :
  forall query, lstrip (normalized_of query) = normalized_of query.
Proof.
  intros query. unfold normalized_of, split_ws.
  match goal with |- context [split_ws_aux [] ?s] =>
    pose proof (split_ws_words s [] (Forall_nil _)) as H;
    destruct (split_ws_aux [] s) as [|word words]
  end; [reflexivity|].
  inversion H as [|? ? (c & rest & -> & Hc) _]; subst.
  destruct words; simpl; rewrite Hc; reflexivity.
Qed.

Lemma compile_select :
  compile select_pattern
  = Cat (Star true (ASet false [CSpace]))
      (Cat (Chr (ALit "S")) (Cat (Chr (ALit "E")) (Cat (Chr (ALit "L"))
        (Cat (Chr (ALit "E")) (Cat (Chr (ALit "C")) (Cat (Chr (ALit "T")) WordB)))))).
Proof. vm_compute. reflexivity. Qed.

Lemma compile_cte :
  compile cte_pattern
  = Cat (Star true (ASet false [CSpace]))
      (Cat (Chr (ALit "W")) (Cat (Chr (ALit "I")) (Cat (Chr (ALit "T")) (Cat (Chr (ALit "H"))
        (Cat (Cat (Chr (ASet false [CSpace])) (Star true (ASet false [CSpace])))
          (Cat (Star false ADot)
            (Cat (Cat (Chr (ASet false [CSpace])) (Star true (ASet false [CSpace])))
              (Cat (Chr (ALit "A")) (Cat (Chr (ALit "S"))
                (Cat (Star true (ASet false [CSpace])) (Chr (ALit "(")))))))))))).
Proof. vm_compute. reflexivity. Qed.

(** One step of a match over a one-character atom, and over a
    repetition, read as equations on the text ahead. *)
Ltac step_chr H :=
  let c := fresh "c" in let s' := fresh "s" in
  let E := fresh "E" in let O := fresh "O" in
  destruct H as (c & s' & E & O & ->); cbn [ahead behind] in *.

Ltac step_star H :=
  let pre := fresh "pre" in let post := fresh "post" in
  let E := fresh "E" in let O := fresh "O" in
  destruct H as (pre & post & E & O & ->); cbn [ahead behind] in *.

Lemma space_set : forall f c, atom_ok f (ASet false [CSpace]) c = is_space c.
Proof. intros f c. simpl. rewrite orb_false_r. reflexivity. Qed.

Lemma forallb_space_set :
  forall f s, forallb (atom_ok f (ASet false [CSpace])) s = forallb is_space s.
Proof.
  intros f s. induction s as [|c s IH]; [reflexivity|].
  cbn [forallb]. rewrite IH. f_equal. apply space_set.
Qed.

Lemma select_match_shape :
  forall n q,
    lstrip n = n ->
    matches f_I (compile select_pattern) (origin n) q ->
    select_shape n.
Proof.
  intros n q Hn. rewrite compile_select. cbn [matches].
  intros (m0 & H0 & m1 & H1 & m2 & H2 & m3 & H3 & m4 & H4 & m5 & H5 & m6 & H6 & Hq & Hb).
  subst q.
  step_star H0. rewrite forallb_space_set in O.
  pose proof (no_leading_spaces n pre post Hn E O) as ->. simpl in E. subst post.
  step_chr H1. step_chr H2. step_chr H3. step_chr H4. step_chr H5. step_chr H6.
  subst. cbn [atom_ok] in *.
  exists [c; c0; c1; c2; c3; c4], s4. split; [reflexivity|]. split.
  - unfold same_word. simpl.
    repeat match goal with
           | H : lit_ok f_I _ _ = true |- _ => apply lit_ok_upper in H; rewrite H; clear H
           end.
    reflexivity.
  - unfold at_wordb in Hb. cbn [ahead behind word_side] in Hb.
    apply lit_ok_upper in O5.
    assert (Hw : is_word c4 = true).
    { pose proof (all_chars_complete c4) as Hin. clear - O5.
      assert (T : forallb (fun c => implb (chr_eqb (upper_chr c) "T") (is_word c))
                    all_chars = true) by (vm_compute; reflexivity).
      rewrite forallb_forall in T. specialize (T c4 (all_chars_complete c4)).
      change (upper_chr "T") with "T"%char in O5. rewrite O5 in T.
      unfold chr_eqb in T. rewrite Ascii.eqb_refl in T. exact T. }
    rewrite Hw in Hb. destruct (word_side s4); [discriminate | reflexivity].
Qed.

Lemma paren_only :
  forall c, lit_ok f_I "(" c = true -> c = "("%char.
Proof.
  intros c H. apply lit_ok_upper in H.
  assert (T : forallb (fun c => implb (chr_eqb (upper_chr c) "(") (chr_eqb c "("))
                all_chars = true) by (vm_compute; reflexivity).
  rewrite forallb_forall in T. specialize (T c (all_chars_complete c)).
  change (upper_chr "(") with "("%char in H. rewrite H in T.
  unfold chr_eqb in T. rewrite Ascii.eqb_refl in T. simpl in T.
  apply Ascii.eqb_eq. exact T.
Qed.

Lemma cte_match_shape :
  forall n q,
    lstrip n = n ->
    matches f_I (compile cte_pattern) (origin n) q ->
    cte_shape n.
Proof.
  intros n q Hn. rewrite compile_cte. cbn [matches].
  intros (m0 & H0 & m1 & HW & m2 & HI & m3 & HT & m4 & HH
          & m5 & (m5a & Hsp1 & Hst1) & m6 & Hdot
          & m7 & (m7a & Hsp2 & Hst2) & m8 & HA & m9 & HS & m10 & Hst3 & Hparen).
  step_star H0. rewrite forallb_space_set in O.
  pose proof (no_leading_spaces n pre post Hn E O) as ->. simpl in E. subst post.
  clear O.
  step_chr HW. step_chr HI. step_chr HT. step_chr HH.
  step_chr Hsp1. step_star Hst1. step_star Hdot.
  step_chr Hsp2. step_star Hst2. step_chr HA. step_chr HS. step_star Hst3.
  destruct Hparen as (cp & rest & Ep & Op & _). cbn [ahead behind] in *.
  apply paren_only in Op. subst.
  rewrite space_set in *. rewrite forallb_space_set in *.
  exists [c; c0; c1; c2], (c3 :: pre), pre0, (c4 :: pre1), [c5; c6], pre2, rest.
  split; [reflexivity|].
  split.
  { unfold same_word. simpl.
    rewrite (lit_ok_upper _ _ O), (lit_ok_upper _ _ O0),
            (lit_ok_upper _ _ O1), (lit_ok_upper _ _ O2). reflexivity. }
  split; [discriminate|].
  split; [unfold spaces; simpl; rewrite O3; assumption|].
  split; [exact O5|].
  split; [discriminate|].
  split; [unfold spaces; simpl; rewrite O6; assumption|].
  split; [|assumption].
  unfold same_word. simpl.
  rewrite (lit_ok_upper _ _ O8), (lit_ok_upper _ _ O9). reflexivity.
Qed.

Lemma re_match_shape :
  forall f r s, found (re_match f r s) = true ->
                exists q, matches f r (origin s) q.
Proof.
  intros f r s H. unfold re_match in H.
  destruct (match_here f r false (origin s)) as [h|] eqn:E; [|discriminate].
  apply match_here_sound in E. exists (h_end h). apply E.
Qed.

(** C10.  Whatever [validate_sql_query] accepts has, once comments are
    removed and white space is collapsed, one of two beginnings: the
    word SELECT, or a common table expression [WITH ... AS (]; the case
    of the letters does not matter.  Any other beginning is rejected. *)
Theorem validator_accepts_select_shapes :
  forall query,
    fst (validate_sql_query query) = true ->
    select_shape (normalized_of query) \/ cte_shape (normalized_of query).
Proof.
  intros query H. unfold validate_sql_query in H.
  pose proof (normalized_no_leading_space query) as Hn.
  destruct (shape_error (normalized_of query)) as [msg|] eqn:E; [discriminate|].
  clear H. unfold shape_error in E.
  destruct (is_cte (normalized_of query)) eqn:C.
  - right. unfold is_cte in C. apply re_match_shape in C. destruct C as (q & M).
    exact (cte_match_shape _ q Hn M).
  - destruct (is_select (normalized_of query)) eqn:S; [|discriminate].
    left. unfold is_select in S. apply re_match_shape in S. destruct S as (q & M).
    exact (select_match_shape _ q Hn M).
Qed.

Lemma validator_accepts_select_shapes_witness :
  fst (validate_sql_query (lit "select a from crs -- all rows")) = true
  /\ (select_shape (normalized_of (lit "select a from crs -- all rows"))
      \/ cte_shape (normalized_of (lit "select a from crs -- all rows"))).
Proof.
  assert (H : fst (validate_sql_query (lit "select a from crs -- all rows")) = true)
    by (vm_compute; reflexivity).
  split; [exact H|].
  exact (validator_accepts_select_shapes (lit "select a from crs -- all rows") H).
Defined.

(** Three leading shapes and the validator's answer. *)
Example validator_on_shapes :
  map (fun q => fst (validate_sql_query (lit q)))
      [ "SELECT 1"; "with t as (select 1) select * from t";
        "DROP TABLE t"; "EXEC sp_who" ]%string
  = [ true; true; false; false ].
Proof. vm_compute. reflexivity. Qed.

(** ** The engine on the test queries of guardrails.py

    The verdict and the messages of the blocking violations for the six
    queries of the module's own test block. *)

Example engine_on_test_queries :
  map (fun q =>
         match validate_query _default_config (lit "2024-01-01T00:00:00") (lit q) with
         | Ok r => Some (is_safe r, map message (violations r))
         | Raise _ => None
         end)
      [ "SELECT * FROM customer_information";
        "DELETE FROM customer_information WHERE id = 1";
        "SELECT * FROM customer_information; DROP TABLE users;--";
        "SELECT TOP 100000 * FROM customer_information";
        "SELECT * FROM nonexistent_table";
        "" ]%string
  = [ Some (true, []);
      Some (false, [ lit "Destructive operation blocked: DELETE operation";
                     lit "Query must start with SELECT or WITH" ]);
      Some (false, [ lit "Security violation: SQL injection: DROP TABLE after semicolon";
                     lit "Destructive operation blocked: DROP operation" ]);
      Some (false, [ lit "TOP value too large (100000, max 10000)" ]);
      Some (false, [ lit "Unknown table referenced: NONEXISTENT_TABLE" ]);
      Some (false, [ lit "Query is empty" ]) ].
Proof. vm_compute. reflexivity. Qed.

(** * Further properties *)

(** ** The guardrail engine: what every violation looks like *)

Lemma security_written :
  forall query, Forall (fun v => as_written v = true) (_check_security query).
Proof.
  intros query. unfold _check_security. apply Forall_app. split.
  - apply Forall_flat_map, Forall_forall. intros [pattern msg] _.
    cbv beta iota. one_family.
  - one_family.
Qed.

Lemma safety_written :
  forall query, Forall (fun v => as_written v = true) (_check_safety query).
Proof.
  intros query. unfold _check_safety. apply Forall_app. split.
  - apply Forall_flat_map, Forall_forall. intros [op description] _.
    cbv beta iota. one_family.
  - one_family.
Qed.

Lemma performance_written :
  forall config query perf,
    _check_performance config query = Ok perf ->
    Forall (fun v => as_written v = true) perf.
Proof.
  intros config query perf H. unfold _check_performance in H.
  destruct (found (re_search no_flags (compile (lit "\bTOP\s+\d+\b"))
                     (upper (_normalize_query query)))).
  - destruct (top_value_of (upper (_normalize_query query))); simpl in H;
      [|discriminate].
    inversion H; subst. one_family.
  - simpl in H. inversion H; subst. one_family.
Qed.

Lemma format_written :
  forall query, Forall (fun v => as_written v = true) (_check_format query).
Proof. intros query. unfold _check_format. one_family. Qed.

Lemma schema_written :
  forall config query,
    Forall (fun v => as_written v = true) (_check_schema config query).
Proof.
  intros config query. unfold _check_schema.
  apply Forall_flat_map, Forall_forall. intros table _. cbv beta zeta. one_family.
Qed.

Lemma collected_written :
  forall config query perf,
    _check_performance config query = Ok perf ->
    Forall (fun v => as_written v = true) (collected config query perf).
Proof.
  intros config query perf H. unfold collected.
  apply Forall_app; split; [apply security_written|].
  apply Forall_app; split; [apply safety_written|].
  apply Forall_app; split; [eapply performance_written; eassumption|].
  apply Forall_app; split; [apply format_written|].
  destruct (validate_tables config); [apply schema_written | constructor].
Qed.

(** Whatever a result lists was collected by the checks. *)
Lemma listed_collected :
  forall config now query r v,
    validate_query config now query = Ok r ->
    In v (violations r ++ warnings r) ->
    exists perf, _check_performance config query = Ok perf
                 /\ In v (collected config query perf).
Proof.
  intros config now query r v H Hin.
  destruct (validate_query_inv _ _ _ _ H) as (perf & Hp & Hv & Hw & _).
  exists perf. split; [exact Hp|].
  apply in_app_or in Hin. rewrite Hv, Hw in Hin.
  destruct Hin as [Hin|Hin]; apply filter_In in Hin; tauto.
Qed.

(** The levels of the entries of a result: what blocks is CRITICAL or
    HIGH, what warns is MEDIUM or LOW, and nothing is INFO.  The comments
    of [RiskLevel] ("Blocks execution", "Warning") hold of every
    violation the checks write. *)
Theorem levels_of_result :
  forall config now query r,
    validate_query config now query = Ok r ->
    Forall (fun v => risk_level v = CRITICAL \/ risk_level v = HIGH) (violations r)
    /\ Forall (fun v => risk_level v = MEDIUM \/ risk_level v = LOW) (warnings r).
Proof.
  intros config now query r H.
  destruct (validate_query_inv _ _ _ _ H) as (perf & Hp & Hv & Hw & _).
  pose proof (collected_written _ _ _ Hp) as W. rewrite Forall_forall in W.
  split; apply Forall_forall; intros v Hin.
  - rewrite Hv in Hin. apply filter_In in Hin. destruct Hin as [Hin Hb].
    specialize (W v Hin). unfold as_written in W. rewrite Hb in W.
    destruct (risk_level v); simpl in W; try discriminate; auto.
  - rewrite Hw in Hin. apply filter_In in Hin. destruct Hin as [Hin Hb].
    specialize (W v Hin). unfold as_written in W.
    destruct (blocks_execution v); [discriminate|].
    destruct (risk_level v); simpl in W; try discriminate; auto.
Qed.

Lemma levels_of_result_witness :
  exists r,
    validate_query _default_config (lit "2024-01-01T00:00:00")
      (lit "SELECT * FROM nonexistent_table") = Ok r
    /\ Forall (fun v => risk_level v = CRITICAL \/ risk_level v = HIGH) (violations r)
    /\ Forall (fun v => risk_level v = MEDIUM \/ risk_level v = LOW) (warnings r).
Proof.
  eexists. split; [vm_compute; reflexivity|].
  apply (levels_of_result _default_config (lit "2024-01-01T00:00:00")
           (lit "SELECT * FROM nonexistent_table")).
  vm_compute; reflexivity.
Defined.

(** No check writes a COMPLEXITY violation, and a SCHEMA violation is
    written only under [validate_tables]. *)
Theorem types_of_result :
  forall config now query r v,
    validate_query config now query = Ok r ->
    In v (violations r ++ warnings r) ->
    violation_type v <> COMPLEXITY
    /\ (violation_type v = SCHEMA -> validate_tables config = true).
Proof.
  intros config now query r v H Hin.
  destruct (listed_collected _ _ _ _ _ H Hin) as (perf & Hp & Hc).
  split.
  - pose proof (collected_written _ _ _ Hp) as W. rewrite Forall_forall in W.
    specialize (W v Hc). unfold as_written in W. intros E. rewrite E in W.
    rewrite andb_false_r in W. discriminate.
  - intros E. unfold collected in Hc.
    assert (R : rank v = 4) by (unfold rank; rewrite E; reflexivity).
    pose proof (security_family query) as F0.
    destruct (safety_family query) as (l1 & l2 & E1 & F1 & F2).
    pose proof (performance_family _ _ _ Hp) as F3.
    pose proof (format_family query) as F4.
    rewrite Forall_forall in F0, F1, F2, F3, F4. rewrite E1 in Hc.
    apply in_app_or in Hc. destruct Hc as [Hc|Hc]; [apply F0 in Hc; congruence|].
    apply in_app_or in Hc. destruct Hc as [Hc|Hc].
    { apply in_app_or in Hc. destruct Hc as [Hc|Hc];
        [apply F1 in Hc | apply F2 in Hc]; congruence. }
    apply in_app_or in Hc. destruct Hc as [Hc|Hc]; [apply F3 in Hc; congruence|].
    apply in_app_or in Hc. destruct Hc as [Hc|Hc]; [apply F4 in Hc; congruence|].
    destruct (validate_tables config); [reflexivity | contradiction].
Qed.

Lemma types_of_result_witness :
  validate_query _default_config (lit "2024-01-01T00:00:00")
    (lit "SELECT * FROM nonexistent_table") = Ok unknown_table_result
  /\ In unknown_table_violation
        (violations unknown_table_result ++ warnings unknown_table_result)
  /\ violation_type unknown_table_violation <> COMPLEXITY
  /\ (violation_type unknown_table_violation = SCHEMA ->
      validate_tables _default_config = true).
Proof.
  assert (H : validate_query _default_config (lit "2024-01-01T00:00:00")
                (lit "SELECT * FROM nonexistent_table") = Ok unknown_table_result)
    by (vm_compute; reflexivity).
  assert (Hin : In unknown_table_violation
                  (violations unknown_table_result ++ warnings unknown_table_result))
    by (left; reflexivity).
  split; [exact H|]. split; [exact Hin|].
  exact (types_of_result _ _ _ _ _ H Hin).
Defined.

(** ** The guardrail engine: edges of the checks *)

Lemma validate_query_returns :
  forall config now query, exists r, validate_query config now query = Ok r.
Proof.
  intros config now query. unfold validate_query, collect_violations.
  destruct (check_performance_returns config query) as (perf & ->).
  simpl. eexists; reflexivity.
Qed.

(** A query longer than [max_query_length] is unsafe, whatever it says:
    the result lists the blocking violation "Query too long (N chars,
    max M)". *)
Theorem long_query_unsafe :
  forall config now query r,
    validate_query config now query = Ok r ->
    (max_query_length config < Z.of_nat (len query))%Z ->
    is_safe r = false
    /\ In (Violation PERFORMANCE HIGH
             (lit "Query too long (" ++ str_of_Z (Z.of_nat (len query))
                ++ lit " chars, max " ++ str_of_Z (max_query_length config) ++ lit ")")
             None (Some (lit "Simplify query or break into smaller queries")) true)
          (violations r).
Proof.
  intros config now query r H Hlen.
  destruct (validate_query_inv _ _ _ _ H) as (perf & Hp & Hv & _ & Hs).
  assert (Hin : In (Violation PERFORMANCE HIGH
             (lit "Query too long (" ++ str_of_Z (Z.of_nat (len query))
                ++ lit " chars, max " ++ str_of_Z (max_query_length config) ++ lit ")")
             None (Some (lit "Simplify query or break into smaller queries")) true)
             (violations r)).
  { rewrite Hv. apply filter_In. split; [|reflexivity].
    unfold collected. apply in_or_app. right. apply in_or_app. right.
    apply in_or_app. left.
    unfold _check_performance in Hp.
    assert (E : (Z.of_nat (len query) >? max_query_length config)%Z = true)
      by (rewrite Z.gtb_ltb; apply Z.ltb_lt; exact Hlen).
    rewrite E in Hp.
    destruct (found (re_search no_flags (compile (lit "\bTOP\s+\d+\b"))
                       (upper (_normalize_query query)))).
    - destruct (top_value_of (upper (_normalize_query query))); simpl in Hp;
        [|discriminate].
      inversion Hp; subst. left; reflexivity.
    - simpl in Hp. inversion Hp; subst. left; reflexivity. }
  split; [|exact Hin].
  rewrite Hs. destruct (violations r); [contradiction | reflexivity].
Qed.

Lemma long_query_unsafe_witness :
  exists r,
    validate_query short_config (lit "2024-01-01T00:00:00") (lit "SELECT a FROM crs") = Ok r
    /\ is_safe r = false
    /\ In (Violation PERFORMANCE HIGH
             (lit "Query too long (" ++ str_of_Z (Z.of_nat (len (lit "SELECT a FROM crs")))
                ++ lit " chars, max " ++ str_of_Z (max_query_length short_config) ++ lit ")")
             None (Some (lit "Simplify query or break into smaller queries")) true)
          (violations r).
Proof.
  eexists. split; [vm_compute; reflexivity|].
  apply (long_query_unsafe short_config (lit "2024-01-01T00:00:00") (lit "SELECT a FROM crs")).
  - vm_compute; reflexivity.
  - vm_compute; reflexivity.
Defined.

Lemma warning_not_critical :
  forall config now query r v,
    validate_query config now query = Ok r ->
    In v (warnings r) -> risk_level v <> CRITICAL.
Proof.
  intros config now query r v H Hin.
  destruct (validate_query_inv _ _ _ _ H) as (perf & Hp & _ & Hw & _).
  pose proof (collected_written _ _ _ Hp) as W. rewrite Forall_forall in W.
  rewrite Hw in Hin. apply filter_In in Hin. destruct Hin as [Hin Hb].
  specialize (W v Hin). unfold as_written in W.
  destruct (blocks_execution v); [discriminate|].
  intros E. rewrite E in W. discriminate.
Qed.

(** [quick_validate] answers False exactly when the engine's result
    holds a CRITICAL entry, and its message is then the messages of the
    critical violations joined by "; ".  A query that is unsafe for HIGH
    violations alone is answered True. *)
Theorem quick_validate_verdict :
  forall now query r ok msg,
    validate_query _default_config now query = Ok r ->
    quick_validate now query = Ok (ok, msg) ->
    (ok = false <->
     exists v, In v (violations r ++ warnings r) /\ risk_level v = CRITICAL)
    /\ (ok = false ->
        msg = join (lit "; ") (map message (get_critical_violations r))).
Proof.
  intros now query r ok msg H Q.
  destruct (validate_query_inv _ _ _ _ H) as (perf & Hp & Hv & Hw & Hs).
  assert (Hcrit : forall v, In v (violations r ++ warnings r) ->
                            risk_level v = CRITICAL ->
                            In v (get_critical_violations r)).
  { intros v Hin E. apply in_app_or in Hin. destruct Hin as [Hin|Hin].
    - unfold get_critical_violations. apply filter_In. split; [exact Hin|].
      unfold is_critical. rewrite E. reflexivity.
    - exfalso. exact (warning_not_critical _ _ _ _ _ H Hin E). }
  unfold quick_validate in Q. rewrite H in Q. simpl in Q.
  destruct (is_safe r) eqn:S.
  - inversion Q; subst. split; [|discriminate]. split; [discriminate|].
    intros (v & Hin & E). apply Hcrit in Hin; [|exact E].
    unfold get_critical_violations in Hin. apply filter_In in Hin.
    destruct Hin as [Hin _]. rewrite Hs in S.
    destruct (violations r); [contradiction | discriminate].
  - destruct (get_critical_violations r) as [|v0 l] eqn:C.
    + inversion Q; subst. split; [|discriminate]. split; [discriminate|].
      intros (v & Hin & E). apply Hcrit in Hin; [contradiction | exact E].
    + inversion Q; subst. split; [|reflexivity]. split; [|reflexivity].
      intros _. exists v0.
      assert (Hin : In v0 (get_critical_violations r)) by (rewrite C; left; reflexivity).
      unfold get_critical_violations in Hin. apply filter_In in Hin.
      destruct Hin as [Hin Hc]. split; [apply in_or_app; left; exact Hin|].
      unfold is_critical in Hc. destruct (risk_level v0); try discriminate; reflexivity.
Qed.

Lemma quick_validate_verdict_witness :
  exists r ok msg,
    validate_query _default_config (lit "2024-01-01T00:00:00")
      (lit "DELETE FROM crs WHERE id = 1") = Ok r
    /\ quick_validate (lit "2024-01-01T00:00:00") (lit "DELETE FROM crs WHERE id = 1")
       = Ok (ok, msg)
    /\ (ok = false <->
        exists v, In v (violations r ++ warnings r) /\ risk_level v = CRITICAL)
    /\ (ok = false ->
        msg = join (lit "; ") (map message (get_critical_violations r))).
Proof.
  eexists. eexists. eexists.
  split; [vm_compute; reflexivity|]. split; [vm_compute; reflexivity|].
  apply (quick_validate_verdict (lit "2024-01-01T00:00:00")
           (lit "DELETE FROM crs WHERE id = 1")).
  - vm_compute; reflexivity.
  - vm_compute; reflexivity.
Defined.


(** *** What a safe query looks like *)

Lemma compile_format_start :
  compile (lit "^\s*(SELECT|WITH)\b")
  = Cat Bol
      (Cat (Star true (ASet false [CSpace]))
         (Cat (Group 1
                 (Alt (Cat (Chr (ALit "S")) (Cat (Chr (ALit "E")) (Cat (Chr (ALit "L"))
                        (Cat (Chr (ALit "E")) (Cat (Chr (ALit "C")) (Chr (ALit "T")))))))
                      (Cat (Chr (ALit "W")) (Cat (Chr (ALit "I"))
                        (Cat (Chr (ALit "T")) (Chr (ALit "H")))))))
              WordB)).
Proof. vm_compute. reflexivity. Qed.

(** A character that IGNORECASE accepts for a capital letter can stand
    in a word. *)
Lemma folded_letter_is_word :
  forall x c, is_upper x = true -> lit_ok f_I x c = true -> is_word c = true.
Proof.
  intros x c Hx H. apply lit_ok_upper in H.
  assert (T : forallb (fun x => forallb (fun c =>
                implb (is_upper x && chr_eqb (upper_chr c) (upper_chr x)) (is_word c))
                all_chars) all_chars = true) by (vm_compute; reflexivity).
  rewrite forallb_forall in T. specialize (T x (all_chars_complete x)).
  rewrite forallb_forall in T. specialize (T c (all_chars_complete c)).
  rewrite Hx, H in T. unfold chr_eqb in T. rewrite Ascii.eqb_refl in T. exact T.
Qed.

Lemma format_start_shape :
  forall n q,
    lstrip n = n ->
    matches f_I (compile (lit "^\s*(SELECT|WITH)\b")) (origin n) q ->
    begins_with_word (lit "SELECT") n \/ begins_with_word (lit "WITH") n.
Proof.
  intros n q Hn. rewrite compile_format_start. cbn [matches].
  intros (m0 & (-> & _) & m1 & H0 & m2 & HA & Hq & Hb). subst q.
  step_star H0. rewrite forallb_space_set in O.
  pose proof (no_leading_spaces n pre post Hn E O) as ->. simpl in E. subst post.
  clear O. destruct HA as [HA|HA].
  - left. destruct HA as (p1 & H1 & p2 & H2 & p3 & H3 & p4 & H4 & p5 & H5 & H6).
    step_chr H1. step_chr H2. step_chr H3. step_chr H4. step_chr H5. step_chr H6.
    subst. cbn [atom_ok] in *.
    exists [c; c0; c1; c2; c3; c4], s4. split; [reflexivity|]. split.
    + unfold same_word. simpl.
      rewrite (lit_ok_upper _ _ O), (lit_ok_upper _ _ O0), (lit_ok_upper _ _ O1),
              (lit_ok_upper _ _ O2), (lit_ok_upper _ _ O3), (lit_ok_upper _ _ O4).
      reflexivity.
    + unfold at_wordb in Hb. cbn [ahead behind word_side] in Hb.
      rewrite (folded_letter_is_word "T" c4 eq_refl O4) in Hb.
      destruct (word_side s4); [discriminate | reflexivity].
  - right. destruct HA as (p1 & H1 & p2 & H2 & p3 & H3 & H4).
    step_chr H1. step_chr H2. step_chr H3. step_chr H4.
    subst. cbn [atom_ok] in *.
    exists [c; c0; c1; c2], s2. split; [reflexivity|]. split.
    + unfold same_word. simpl.
      rewrite (lit_ok_upper _ _ O), (lit_ok_upper _ _ O0), (lit_ok_upper _ _ O1),
              (lit_ok_upper _ _ O2).
      reflexivity.
    + unfold at_wordb in Hb. cbn [ahead behind word_side] in Hb.
      rewrite (folded_letter_is_word "H" c2 eq_refl O2) in Hb.
      destruct (word_side s2); [discriminate | reflexivity].
Qed.

(** A query the engine calls safe is not blank; once comments are
    removed and white space is collapsed it begins with the word SELECT
    or the word WITH, in any case, and it has as many opening as closing
    parentheses. *)
Theorem safe_query_format :
  forall config now query r,
    validate_query config now query = Ok r ->
    is_safe r = true ->
    strip query <> []
    /\ (begins_with_word (lit "SELECT") (_normalize_query query)
        \/ begins_with_word (lit "WITH") (_normalize_query query))
    /\ count_chr "(" (_normalize_query query) = count_chr ")" (_normalize_query query).
Proof.
  intros config now query r H S.
  destruct (validate_query_inv _ _ _ _ H) as (perf & Hp & _).
  assert (F : forall v, In v (_check_format query) -> blocks_execution v = true -> False).
  { intros v Hin Hb.
    assert (U : is_safe r = false).
    { apply (unsafe_of_blocking _ _ _ _ v perf H Hp); [|exact Hb].
      unfold collected. do 3 (apply in_or_app; right). apply in_or_app. left. exact Hin. }
    congruence. }
  unfold _check_format in F.
  destruct (is_empty query || is_empty (strip query)) eqn:E.
  { exfalso. eapply F; [left; reflexivity | reflexivity]. }
  apply orb_false_iff in E. destruct E as [_ E].
  split; [intros N; rewrite N in E; discriminate|].
  split.
  - destruct (found (re_match f_I (compile (lit "^\s*(SELECT|WITH)\b"))
                       (_normalize_query query))) eqn:M.
    + apply re_match_shape in M. destruct M as (q & M).
      apply (format_start_shape _ q); [|exact M].
      exact (normalized_no_leading_space query).
    + exfalso. eapply F; [apply in_or_app; left; left; reflexivity | reflexivity].
  - destruct (count_chr "(" (_normalize_query query)
              =? count_chr ")" (_normalize_query query)) eqn:P.
    + apply Nat.eqb_eq. exact P.
    + exfalso. eapply F; [apply in_or_app; right; left; reflexivity | reflexivity].
Qed.

Lemma safe_query_format_witness :
  exists r,
    validate_query _default_config (lit "2024-01-01T00:00:00")
      (lit "select (a) from crs") = Ok r
    /\ is_safe r = true
    /\ strip (lit "select (a) from crs") <> []
    /\ (begins_with_word (lit "SELECT") (_normalize_query (lit "select (a) from crs"))
        \/ begins_with_word (lit "WITH") (_normalize_query (lit "select (a) from crs")))
    /\ count_chr "(" (_normalize_query (lit "select (a) from crs"))
       = count_chr ")" (_normalize_query (lit "select (a) from crs")).
Proof.
  eexists. split; [vm_compute; reflexivity|]. split; [vm_compute; reflexivity|].
  eapply (safe_query_format _default_config (lit "2024-01-01T00:00:00")
            (lit "select (a) from crs")).
  - vm_compute; reflexivity.
  - vm_compute; reflexivity.
Defined.

(** ** The batch executor: the records as a whole *)

Ltac fits :=
  unfold keys_fit_status; simpl;
  repeat split; intros; try discriminate; try congruence; auto;
  match goal with
  | H : _ \/ _ |- _ => destruct H; discriminate
  end.

Section Records.

Variables World Connection : Type.
Variable connect_to_sql_server : World -> option Connection * World.
Variable read_sql_query : str -> Connection -> World -> (DataFrame + str) * World.

Lemma loop_body_record :
  forall c (st : LoopState World) i query,
    exists rec,
      results (loop_body read_sql_query c st i query) = results st ++ [rec]
      /\ submitted (loop_body read_sql_query c st i query)
         = submitted st ++ (if was_run rec then [r_query rec] else [])
      /\ keys_fit_status rec
      /\ r_status rec <> connection_error /\ r_status rec <> format_error.
Proof.
  intros c st i query. unfold loop_body.
  destruct (is_empty (clean_sql_query (strip query))).
  - eexists. split; [reflexivity|]. simpl. rewrite app_nil_r.
    split; [reflexivity|]. split; [fits|]. split; discriminate.
  - destruct (validate_sql_query (clean_sql_query (strip query))) as [ok msg].
    destruct ok; simpl.
    + destruct (read_sql_query (clean_sql_query (strip query)) c (world st)) as [o w].
      destruct o as [df|e]; [destruct (df_to_json df)|];
        (eexists; split; [reflexivity|]; simpl;
         split; [reflexivity|]; split; [fits|]; split; discriminate).
    + eexists. split; [reflexivity|]. simpl. rewrite app_nil_r.
      split; [reflexivity|]. split; [fits|]. split; discriminate.
Qed.

Lemma run_loop_record :
  forall c queries (st : LoopState World) i,
    exists recs,
      results (run_loop read_sql_query c st i queries) = results st ++ recs
      /\ submitted (run_loop read_sql_query c st i queries)
         = submitted st ++ map r_query (filter was_run recs)
      /\ List.length recs = List.length queries
      /\ Forall keys_fit_status recs
      /\ Forall (fun rec => r_status rec <> connection_error
                            /\ r_status rec <> format_error) recs.
Proof.
  intros c. induction queries as [|query rest IH]; intros st i; simpl.
  - exists []. simpl. rewrite !app_nil_r. repeat split; constructor.
  - destruct (loop_body_record c st i query) as (rec & Hr & Hs & Hk & Hn).
    destruct (IH (loop_body read_sql_query c st i query) (S i))
      as (recs & Hrs & Hss & Hlen & Hks & Hns).
    exists (rec :: recs). split; [|split; [|split; [|split]]].
    + rewrite Hrs, Hr, <- app_assoc. reflexivity.
    + rewrite Hss, Hs, <- app_assoc. f_equal. simpl.
      destruct (was_run rec); reflexivity.
    + simpl. rewrite Hlen. reflexivity.
    + constructor; assumption.
    + constructor; assumption.
Qed.

(** The executor never returns an empty list: without a connection, and
    for a text where no statement is found, it returns one record that
    says so; otherwise one record for each statement found. *)
Theorem results_never_empty :
  forall sql_code connection w,
    results (execute_multiple_sql_code connect_to_sql_server read_sql_query
               sql_code connection w) <> [].
Proof.
  intros sql_code connection w. unfold execute_multiple_sql_code.
  destruct (match connection with
            | Some c => (Some c, w)
            | None => connect_to_sql_server w
            end) as [[c|] w']; simpl; [|discriminate].
  destruct (extract_queries sql_code) as [|q0 qs] eqn:E; simpl; [discriminate|].
  change (results (run_loop read_sql_query c (MkLoop w' [] []) 0 (q0 :: qs)) <> []).
  destruct (run_loop_record c (q0 :: qs) (MkLoop w' [] []) 0)
    as (recs & Hr & _ & Hlen & _).
  rewrite Hr. simpl. destruct recs; [discriminate Hlen | discriminate].
Qed.


(** The optional keys of every record fit its status: "row_count",
    "column_count" and "columns" are present exactly for [success] and
    [json_error], "column_info" exactly for [json_error], and
    "column_count" is the number of "columns". *)
Theorem records_fit_status :
  forall sql_code connection w,
    Forall keys_fit_status
      (results (execute_multiple_sql_code connect_to_sql_server read_sql_query
                  sql_code connection w)).
Proof.
  intros sql_code connection w. unfold execute_multiple_sql_code.
  destruct (match connection with
            | Some c => (Some c, w)
            | None => connect_to_sql_server w
            end) as [[c|] w']; simpl; [|constructor; [fits | constructor]].
  destruct (extract_queries sql_code) as [|q0 qs] eqn:E; simpl;
    [constructor; [fits | constructor]|].
  change (Forall keys_fit_status
            (results (run_loop read_sql_query c (MkLoop w' [] []) 0 (q0 :: qs)))).
  destruct (run_loop_record c (q0 :: qs) (MkLoop w' [] []) 0)
    as (recs & Hr & _ & _ & Hk & _).
  rewrite Hr. exact Hk.
Qed.

(** A [connection_error] or [format_error] record is the whole answer:
    it stands alone, nothing was handed to the database, and its query
    text has at most 203 characters (200 of the input and "..."). *)
Theorem error_record_stands_alone :
  forall sql_code connection w r,
    In r (results (execute_multiple_sql_code connect_to_sql_server read_sql_query
                     sql_code connection w)) ->
    r_status r = connection_error \/ r_status r = format_error ->
    results (execute_multiple_sql_code connect_to_sql_server read_sql_query
               sql_code connection w) = [r]
    /\ submitted (execute_multiple_sql_code connect_to_sql_server read_sql_query
                    sql_code connection w) = []
    /\ len (r_query r) <= 203.
Proof.
  intros sql_code connection w r. unfold execute_multiple_sql_code.
  destruct (match connection with
            | Some c => (Some c, w)
            | None => connect_to_sql_server w
            end) as [[c|] w']; simpl.
  - destruct (extract_queries sql_code) as [|q0 qs] eqn:E; simpl.
    + intros [<-|[]] _. split; [reflexivity|]. split; [reflexivity|]. simpl.
      destruct (200 <? len sql_code) eqn:L.
      * unfold len, slice. rewrite length_app. simpl.
        pose proof (firstn_le_length (200 - 0) (skipn 0 sql_code)) as F.
        simpl in F. unfold len in *. lia.
      * apply Nat.ltb_ge in L. unfold len in *. lia.
    + change (In r (results (run_loop read_sql_query c (MkLoop w' [] []) 0 (q0 :: qs))) ->
              r_status r = connection_error \/ r_status r = format_error ->
              results (run_loop read_sql_query c (MkLoop w' [] []) 0 (q0 :: qs)) = [r]
              /\ submitted (run_loop read_sql_query c (MkLoop w' [] []) 0 (q0 :: qs)) = []
              /\ len (r_query r) <= 203).
      destruct (run_loop_record c (q0 :: qs) (MkLoop w' [] []) 0)
        as (recs & Hr & _ & _ & _ & Hn).
      rewrite Hr. simpl. intros Hin Hst. exfalso.
      rewrite Forall_forall in Hn. destruct (Hn r Hin) as [N1 N2].
      destruct Hst; contradiction.
  - intros [<-|[]] _. simpl. split; [reflexivity|]. split; [reflexivity|]. lia.
Qed.

End Records.

Lemma error_record_stands_alone_witness :
  let r := plain_record [] (lit "Error: No database connection provided")
             connection_error in
  In r (results (execute_multiple_sql_code no_server empty_db
                   (lit "SELECT 1") None tt))
  /\ (r_status r = connection_error \/ r_status r = format_error)
  /\ results (execute_multiple_sql_code no_server empty_db (lit "SELECT 1") None tt) = [r]
  /\ submitted (execute_multiple_sql_code no_server empty_db (lit "SELECT 1") None tt) = []
  /\ len (r_query r) <= 203.
Proof.
  intros r.
  assert (Hin : In r (results (execute_multiple_sql_code no_server empty_db
                                 (lit "SELECT 1") None tt)))
    by (left; reflexivity).
  assert (Hst : r_status r = connection_error \/ r_status r = format_error)
    by (left; reflexivity).
  split; [exact Hin|]. split; [exact Hst|].
  exact (error_record_stands_alone unit unit no_server empty_db
           (lit "SELECT 1") None tt r Hin Hst).
Defined.

(** ** The scan of [findall], [sub] and [split], step by step *)

Lemma scan_skip_cons :
  forall f r k b c s, scan f r (S k) b (c :: s) = scan f r k (c :: b) s.
Proof. reflexivity. Qed.

Lemma scan_miss_cons :
  forall f r b c s,
    match_here f r false (Cursor b (c :: s)) = None ->
    scan f r 0 b (c :: s) = Plain c :: scan f r 0 (c :: b) s.
Proof. intros f r b c s H. simpl. rewrite H. reflexivity. Qed.

Lemma scan_miss_nil :
  forall f r b, match_here f r false (Cursor b []) = None -> scan f r 0 b [] = [].
Proof. intros f r b H. simpl. rewrite H. reflexivity. Qed.

Lemma scan_hit_cons :
  forall f r b c s h n,
    match_here f r false (Cursor b (c :: s)) = Some h ->
    offset (h_end h) - len b = S n ->
    scan f r 0 b (c :: s) = Matched h :: scan f r n (c :: b) s.
Proof.
  intros f r b c s h n H E. simpl. rewrite H.
  change (offset {| behind := b; ahead := c :: s |}) with (len b).
  rewrite E. reflexivity.
Qed.

Lemma scan_skip :
  forall f r m b rest,
    scan f r (len m) b (m ++ rest) = scan f r 0 (rev m ++ b) rest.
Proof.
  intros f r. induction m as [|c m IH]; intros b rest; [reflexivity|].
  change (scan f r (S (len m)) b (c :: m ++ rest) = scan f r 0 (rev (c :: m) ++ b) rest).
  rewrite scan_skip_cons, IH. simpl. rewrite <- app_assoc. reflexivity.
Qed.

(** A pattern that begins with the literal [x] matches nowhere in a text
    without [x]. *)
Lemma first_literal_fails :
  forall f x r m b s,
    match s with c :: _ => lit_ok f x c = false | [] => True end ->
    match_here f (Cat (Chr (ALit x)) r) m (Cursor b s) = None.
Proof.
  intros f x r m b s H. unfold match_here. simpl.
  destruct s as [|c s]; [reflexivity|]. rewrite H. reflexivity.
Qed.

Lemma scan_plain :
  forall f x r s b,
    (forall c, In c s -> lit_ok f x c = false) ->
    scan f (Cat (Chr (ALit x)) r) 0 b s = map Plain s.
Proof.
  intros f x r. induction s as [|c s IH]; intros b H.
  - apply scan_miss_nil. apply first_literal_fails. exact I.
  - rewrite scan_miss_cons.
    + simpl. f_equal. apply IH. intros c' Hc. apply H. right. exact Hc.
    + apply first_literal_fails. apply H. left. reflexivity.
Qed.

Lemma sub_plain :
  forall (repl : str) s,
    flat_map (fun p => match p with Matched _ => repl | Plain c => [c] end)
             (map Plain s) = s.
Proof. intros repl. induction s as [|c s IH]; simpl; [|rewrite IH]; reflexivity. Qed.

Lemma hits_plain : forall s, hits (map Plain s) = [].
Proof. induction s as [|c s IH]; [reflexivity | exact IH]. Qed.

Lemma lit_ok_plain :
  forall f x c, IGNORECASE f = false -> x <> c -> lit_ok f x c = false.
Proof.
  intros f x c Hf N. unfold lit_ok. rewrite Hf. unfold chr_eqb.
  apply Ascii.eqb_neq. exact N.
Qed.

Lemma no_backtick_lit :
  forall f s, IGNORECASE f = false -> no_backtick s ->
              forall c, In c s -> lit_ok f "`" c = false.
Proof.
  intros f s Hf H c Hc. unfold lit_ok. rewrite Hf. unfold chr_eqb.
  apply Ascii.eqb_neq. intros <-. exact (H Hc).
Qed.

(** ** Blank queries *)

Lemma lstrip_blank : forall s, forallb is_space s = true -> lstrip s = [].
Proof.
  induction s as [|c s IH]; simpl; [reflexivity|].
  intros H. apply andb_true_iff in H. destruct H as [Hc Hs]. rewrite Hc. auto.
Qed.

Lemma strip_blank : forall s, forallb is_space s = true -> strip s = [].
Proof. intros s H. unfold strip. rewrite (lstrip_blank s H). reflexivity. Qed.

Lemma split_ws_blank : forall s, forallb is_space s = true -> split_ws s = [].
Proof.
  unfold split_ws. induction s as [|c s IH]; simpl; [reflexivity|].
  intros H. apply andb_true_iff in H. destruct H as [Hc Hs]. rewrite Hc. auto.
Qed.

Lemma compile_line_comment :
  compile (lit "--.*?(\n|$)")
  = Cat (Chr (ALit "-"))
      (Cat (Chr (ALit "-")) (Cat (Star false ADot) (Group 1 (Alt (Chr (ALit nl)) Eol)))).
Proof. vm_compute. reflexivity. Qed.

Lemma compile_block_comment :
  compile (lit "/\*.*?\*/")
  = Cat (Chr (ALit "/"))
      (Cat (Chr (ALit "*")) (Cat (Star false ADot) (Cat (Chr (ALit "*")) (Chr (ALit "/"))))).
Proof. vm_compute. reflexivity. Qed.

(** Removing comments leaves a text without [-] and [/] as it is. *)
Lemma comments_out_plain :
  forall s,
    (forall c, In c s -> c <> "-"%char /\ c <> "/"%char) ->
    re_sub f_S (compile (lit "/\*.*?\*/")) (lit " ")
      (re_sub no_flags (compile (lit "--.*?(\n|$)")) (lit " ") s) = s.
Proof.
  intros s H. rewrite compile_line_comment, compile_block_comment.
  unfold re_sub, pieces.
  rewrite (scan_plain no_flags "-"); [rewrite sub_plain|].
  - rewrite (scan_plain f_S "/"); [apply sub_plain|].
    intros c Hc. apply lit_ok_plain; [reflexivity|].
    intros <-. destruct (H _ Hc) as [_ N]. apply N. reflexivity.
  - intros c Hc. apply lit_ok_plain; [reflexivity|].
    intros <-. destruct (H _ Hc) as [N _]. apply N. reflexivity.
Qed.

Lemma normalize_blank :
  forall query, forallb is_space query = true -> _normalize_query query = [].
Proof.
  intros query H. unfold _normalize_query.
  rewrite comments_out_plain.
  - rewrite (split_ws_blank query H). reflexivity.
  - intros c Hc. rewrite forallb_forall in H. specialize (H c Hc).
    split; intros ->; discriminate.
Qed.

(** A query that is empty or all white space is rejected: under every
    configuration the result is unsafe and lists the critical violation
    "Query is empty", and [quick_validate] answers False with exactly
    that message, however long the query is. *)
Theorem blank_query_rejected :
  forall now query,
    forallb is_space query = true ->
    quick_validate now query = Ok (false, lit "Query is empty")
    /\ forall config, exists r,
         validate_query config now query = Ok r
         /\ is_safe r = false
         /\ In (Violation FORMAT CRITICAL (lit "Query is empty") None
                  (Some (lit "Provide a valid SQL query")) true)
               (violations r).
Proof.
  intros now query H. split.
  - unfold quick_validate, validate_query, collect_violations,
      _check_security, _check_safety, _check_performance, _check_format, _check_schema.
    rewrite (normalize_blank query H), (strip_blank query H).
    change (is_empty []) with true. rewrite orb_true_r.
    match goal with
    | |- context [(Z.of_nat (len query) >? ?b)%Z] =>
        destruct (Z.of_nat (len query) >? b)%Z
    end; vm_compute; reflexivity.
  - intros config.
    destruct (validate_query_returns config now query) as (r & Hr).
    exists r. split; [exact Hr|].
    destruct (validate_query_inv _ _ _ _ Hr) as (perf & Hp & Hv & _ & Hs).
    assert (Hin : In (Violation FORMAT CRITICAL (lit "Query is empty") None
                        (Some (lit "Provide a valid SQL query")) true)
                     (violations r)).
    { rewrite Hv. apply filter_In. split; [|reflexivity].
      unfold collected. do 3 (apply in_or_app; right). apply in_or_app. left.
      unfold _check_format. rewrite (strip_blank query H).
      change (is_empty []) with true. rewrite orb_true_r. left. reflexivity. }
    split; [|exact Hin].
    rewrite Hs. destruct (violations r); [contradiction | reflexivity].
Qed.

Lemma blank_query_rejected_witness :
  forallb is_space [" "%char; nl; " "%char] = true
  /\ quick_validate (lit "2024-01-01T00:00:00") [" "%char; nl; " "%char]
     = Ok (false, lit "Query is empty")
  /\ forall config, exists r,
       validate_query config (lit "2024-01-01T00:00:00") [" "%char; nl; " "%char] = Ok r
       /\ is_safe r = false
       /\ In (Violation FORMAT CRITICAL (lit "Query is empty") None
                (Some (lit "Provide a valid SQL query")) true)
             (violations r).
Proof.
  split; [reflexivity|].
  apply (blank_query_rejected (lit "2024-01-01T00:00:00") [" "%char; nl; " "%char]).
  reflexivity.
Defined.

(** ** Fenced blocks *)

Lemma star_greedy_max :
  forall (A : Type) f a (k : cursor -> option A) ws rest b x,
    forallb (atom_ok f a) ws = true ->
    match rest with c :: _ => atom_ok f a c = false | [] => True end ->
    k (Cursor (rev ws ++ b) rest) = Some x ->
    star_loop f true a k b (ws ++ rest) = Some x.
Proof.
  intros A f a k. induction ws as [|c ws IH]; intros rest b x Hws Hrest Hk; simpl in *.
  - destruct rest as [|c s]; simpl; [exact Hk|]. rewrite Hrest. exact Hk.
  - apply andb_true_iff in Hws. destruct Hws as [Hc Hws]. rewrite Hc.
    rewrite (IH rest (c :: b) x Hws Hrest); [reflexivity|].
    rewrite <- app_assoc in Hk. exact Hk.
Qed.

Lemma star_lazy_skip :
  forall (A : Type) f a (k : cursor -> option A) t rest b x,
    forallb (atom_ok f a) t = true ->
    (forall b' c s', In c t -> k (Cursor b' (c :: s')) = None) ->
    k (Cursor (rev t ++ b) rest) = Some x ->
    star_loop f false a k b (t ++ rest) = Some x.
Proof.
  intros A f a k. induction t as [|c t IH]; intros rest b x Ht Hfail Hk; simpl in *.
  - destruct rest as [|c s]; simpl; [exact Hk|].
    destruct (atom_ok f a c); [rewrite Hk; reflexivity | exact Hk].
  - apply andb_true_iff in Ht. destruct Ht as [Hc Ht]. rewrite Hc.
    rewrite (Hfail b c (t ++ rest) (or_introl eq_refl)).
    apply IH; [exact Ht | |].
    + intros b' c' s' Hin. apply Hfail. right. exact Hin.
    + rewrite <- app_assoc in Hk. exact Hk.
Qed.

Lemma between_cursors_app :
  forall t b s s', between_cursors (Cursor b s) (Cursor (rev t ++ b) s') = t.
Proof.
  intros t b s s'. unfold between_cursors, offset, len. simpl.
  rewrite length_app, length_rev.
  replace (List.length t + List.length b - List.length b) with (List.length (rev t))
    by (rewrite length_rev; lia).
  rewrite firstn_app, firstn_all, Nat.sub_diag. simpl.
  rewrite app_nil_r. apply rev_involutive.
Qed.

(** A text is a run of white space followed by what [lstrip] keeps, and
    that part does not begin with white space. *)
Lemma lstrip_split :
  forall s, exists ws, s = ws ++ lstrip s /\ forallb is_space ws = true.
Proof.
  induction s as [|c s (ws & E & H)]; [exists []; auto|]. simpl.
  destruct (is_space c) eqn:C.
  - exists (c :: ws). simpl. rewrite C, H, <- E. auto.
  - exists []. auto.
Qed.

Lemma lstrip_head :
  forall s c s', lstrip s = c :: s' -> is_space c = false.
Proof.
  induction s as [|x s IH]; simpl; intros c s' H; [discriminate|].
  destruct (is_space x) eqn:X; [eapply IH; eassumption|].
  inversion H; subst. exact X.
Qed.

Lemma lstrip_incl : forall s c, In c (lstrip s) -> In c s.
Proof.
  induction s as [|x s IH]; simpl; intros c H; [contradiction|].
  destruct (is_space x); [right; auto | exact H].
Qed.

Lemma compile_sql_block :
  compile (lit "```\s*sql\s*(.*?)```")
  = Cat (Chr (ALit "`")) (Cat (Chr (ALit "`")) (Cat (Chr (ALit "`"))
      (Cat (Star true (ASet false [CSpace]))
         (Cat (Chr (ALit "s")) (Cat (Chr (ALit "q")) (Cat (Chr (ALit "l"))
            (Cat (Star true (ASet false [CSpace]))
               (Cat (Group 1 (Star false ADot))
                  (Cat (Chr (ALit "`")) (Cat (Chr (ALit "`")) (Chr (ALit "`")))))))))))).
Proof. vm_compute. reflexivity. Qed.

Lemma run_lit :
  forall f x r (A : Type) b s cs (k : cursor -> captures -> option A),
    IGNORECASE f = false ->
    run f (Cat (Chr (ALit x)) r) (Cursor b (x :: s)) cs k
    = run f r (Cursor (x :: b) s) cs k.
Proof.
  intros f x r A b s cs k Hf. simpl. unfold lit_ok. rewrite Hf.
  unfold chr_eqb. rewrite Ascii.eqb_refl. reflexivity.
Qed.

Lemma run_lit_last :
  forall f x (A : Type) b s cs (k : cursor -> captures -> option A),
    IGNORECASE f = false ->
    run f (Chr (ALit x)) (Cursor b (x :: s)) cs k = k (Cursor (x :: b) s) cs.
Proof.
  intros f x A b s cs k Hf. simpl. unfold lit_ok. rewrite Hf.
  unfold chr_eqb. rewrite Ascii.eqb_refl. reflexivity.
Qed.

Lemma run_lit_miss :
  forall f x r (A : Type) b c s cs (k : cursor -> captures -> option A),
    IGNORECASE f = false -> x <> c ->
    run f (Cat (Chr (ALit x)) r) (Cursor b (c :: s)) cs k = None.
Proof.
  intros f x r A b c s cs k Hf N. simpl. rewrite (lit_ok_plain f x c Hf N). reflexivity.
Qed.

Lemma dot_all : forall t, forallb (atom_ok f_S ADot) t = true.
Proof. induction t as [|c t IH]; [reflexivity | exact IH]. Qed.

Lemma fence_run :
  forall (A : Type) (k : cursor -> captures -> option A) t rest b x,
    no_backtick t ->
    k (Cursor (rev (lit "```sql" ++ t ++ lit "```") ++ b) rest) [(1, lstrip t)] = Some x ->
    run f_S (compile (lit "```\s*sql\s*(.*?)```"))
        (Cursor b (lit "```sql" ++ t ++ lit "```" ++ rest)) [] k
    = Some x.
Proof.
  intros A k t rest b x Ht Hk. rewrite compile_sql_block.
  destruct (lstrip_split t) as (ws & E & Hws).
  remember (lstrip t) as t' eqn:Et'.
  assert (Hhead : match t' ++ lit "```" ++ rest with
                  | c :: _ => atom_ok f_S (ASet false [CSpace]) c = false
                  | [] => True
                  end).
  { destruct t' as [|c t'']; [reflexivity|]. simpl. rewrite orb_false_r.
    eapply lstrip_head. symmetry. exact Et'. }
  assert (Hin : forall c, In c t' -> "`"%char <> c).
  { intros c Hc <-. apply Ht. apply lstrip_incl. rewrite <- Et'. exact Hc. }
  clear Et'. subst t.
  cbn [lit list_ascii_of_string app] in *.
  rewrite !run_lit by reflexivity.
  change (run f_S (Cat (Star true (ASet false [CSpace])) ?r) ?p ?cs ?k)
    with (star_loop f_S true (ASet false [CSpace]) (fun q => run f_S r q cs k)
            (behind p) (ahead p)).
  cbn [behind ahead].
  apply (star_greedy_max _ f_S (ASet false [CSpace]) _ [] _ _ x eq_refl);
    [reflexivity|].
  cbn [rev app]. rewrite !run_lit by reflexivity.
  change (run f_S (Cat (Star true (ASet false [CSpace])) ?r) ?p ?cs ?k)
    with (star_loop f_S true (ASet false [CSpace]) (fun q => run f_S r q cs k)
            (behind p) (ahead p)).
  cbn [behind ahead]. rewrite <- app_assoc.
  apply star_greedy_max; [rewrite forallb_space_set; exact Hws | exact Hhead |].
  change (run f_S (Cat (Group 1 (Star false ADot)) ?r) ?p ?cs ?k)
    with (star_loop f_S false ADot
            (fun q => run f_S r q ((1, between_cursors p q) :: cs) k)
            (behind p) (ahead p)).
  cbn [behind ahead].
  apply star_lazy_skip; [apply dot_all | |].
  - intros b' c s' Hc. apply run_lit_miss; [reflexivity | apply Hin; exact Hc].
  - rewrite between_cursors_app. rewrite !run_lit by reflexivity.
    rewrite run_lit_last by reflexivity.
    rewrite <- Hk. f_equal. f_equal.
    cbn [rev]. rewrite !rev_app_distr. cbn [rev app]. rewrite <- !app_assoc.
    reflexivity.
Qed.

Lemma fence_hit :
  forall t rest b,
    no_backtick t ->
    match_here f_S (compile (lit "```\s*sql\s*(.*?)```")) false
      (Cursor b (lit "```sql" ++ t ++ lit "```" ++ rest))
    = Some (Hit (Cursor b (lit "```sql" ++ t ++ lit "```" ++ rest))
                (Cursor (rev (lit "```sql" ++ t ++ lit "```") ++ b) rest)
                [(1, lstrip t)]).
Proof.
  intros t rest b Ht. unfold match_here. apply fence_run; [exact Ht | reflexivity].
Qed.

Lemma scan_hit_skip :
  forall f r b m rest h,
    m <> [] ->
    match_here f r false (Cursor b (m ++ rest)) = Some h ->
    h_end h = Cursor (rev m ++ b) rest ->
    scan f r 0 b (m ++ rest) = Matched h :: scan f r 0 (rev m ++ b) rest.
Proof.
  intros f r b [|c m] rest h Hm H E; [contradiction|].
  simpl app in *. rewrite (scan_hit_cons f r b c (m ++ rest) h (len m) H).
  - rewrite scan_skip. simpl. rewrite <- app_assoc. reflexivity.
  - rewrite E. unfold offset, len. simpl. rewrite !length_app, length_rev. simpl. lia.
Qed.

(** The scan over one fenced block and what follows it. *)
Lemma scan_fence :
  forall t rest b,
    no_backtick t ->
    exists h,
      scan f_S (compile (lit "```\s*sql\s*(.*?)```")) 0 b
           (lit "```sql" ++ t ++ lit "```" ++ rest)
      = Matched h
        :: scan f_S (compile (lit "```\s*sql\s*(.*?)```")) 0
                (rev (lit "```sql" ++ t ++ lit "```") ++ b) rest
      /\ group 1 (h_caps h) = lstrip t.
Proof.
  intros t rest b Ht.
  pose proof (fence_hit t rest b Ht) as H.
  assert (E : lit "```sql" ++ t ++ lit "```" ++ rest
              = (lit "```sql" ++ t ++ lit "```") ++ rest)
    by (rewrite <- !app_assoc; reflexivity).
  rewrite E in *. eexists. split.
  - apply scan_hit_skip; [discriminate | exact H | reflexivity].
  - reflexivity.
Qed.

(** ** The service over the batch executor *)

Lemma lstrip_app :
  forall a b,
    lstrip (a ++ b) = match lstrip a with [] => lstrip b | _ => lstrip a ++ b end.
Proof.
  induction a as [|c a IH]; intros b; simpl; [reflexivity|].
  destruct (is_space c); [apply IH | reflexivity].
Qed.

Lemma rstrip_snoc_space :
  forall s c, is_space c = true -> rstrip (s ++ [c]) = rstrip s.
Proof.
  intros s c H. unfold rstrip. rewrite rev_app_distr. simpl. rewrite H. reflexivity.
Qed.

(** Between the fences the statement stands with the line breaks of the
    f-string around it; stripping removes them. *)
Lemma strip_fence_body :
  forall q, strip (lstrip (nl :: q ++ [nl])) = strip q.
Proof.
  intros q. unfold strip. rewrite lstrip_idempotent.
  change (lstrip (nl :: q ++ [nl])) with (lstrip (q ++ [nl])).
  rewrite lstrip_app. destruct (lstrip q) as [|c l]; [reflexivity|].
  apply rstrip_snoc_space. reflexivity.
Qed.

Lemma fenced_app :
  forall q rest,
    fenced q ++ rest = lit "```sql" ++ (nl :: q ++ [nl]) ++ lit "```" ++ rest.
Proof.
  intros q rest. unfold fenced. rewrite <- !app_assoc. simpl.
  rewrite <- !app_assoc. reflexivity.
Qed.

Lemma no_backtick_body :
  forall q, no_backtick q -> no_backtick (nl :: q ++ [nl]).
Proof.
  intros q H [E|Hin]; [discriminate|].
  apply in_app_or in Hin. destruct Hin as [Hin|[E|[]]]; [exact (H Hin) | discriminate].
Qed.

Lemma sql_block_miss :
  forall m b s,
    match s with c :: _ => "`"%char <> c | [] => True end ->
    match_here f_S (compile (lit "```\s*sql\s*(.*?)```")) m (Cursor b s) = None.
Proof.
  intros m b s H. rewrite compile_sql_block. apply first_literal_fails.
  destruct s as [|c s]; [exact I|]. apply lit_ok_plain; [reflexivity | exact H].
Qed.

(** The fenced blocks of a text made of fenced statements, each on its
    own and two line breaks between them. *)
Lemma scan_joined :
  forall qs b,
    Forall no_backtick qs ->
    map (fun h => group 1 (h_caps h))
        (hits (scan f_S (compile (lit "```\s*sql\s*(.*?)```")) 0 b
                    (join [nl; nl] (map fenced qs))))
    = map (fun q => lstrip (nl :: q ++ [nl])) qs.
Proof.
  induction qs as [|q qs IH]; intros b H.
  - simpl join. rewrite scan_miss_nil; [reflexivity|]. apply sql_block_miss. exact I.
  - inversion H as [|? ? Hq Hqs]; subst.
    destruct qs as [|q' l].
    + simpl join. rewrite <- (app_nil_r (fenced q)), fenced_app.
      destruct (scan_fence _ [] b (no_backtick_body q Hq)) as (h & -> & Hh).
      rewrite scan_miss_nil; [|apply sql_block_miss; exact I].
      simpl. rewrite Hh. reflexivity.
    + change (join [nl; nl] (map fenced (q :: q' :: l)))
        with (fenced q ++ [nl; nl] ++ join [nl; nl] (map fenced (q' :: l))).
      rewrite fenced_app.
      destruct (scan_fence _ ([nl; nl] ++ join [nl; nl] (map fenced (q' :: l))) b
                  (no_backtick_body q Hq)) as (h & -> & Hh).
      cbn [app]. rewrite !scan_miss_cons by (apply sql_block_miss; discriminate).
      cbn [hits flat_map app map]. rewrite Hh. f_equal.
      apply IH. exact Hqs.
Qed.

Lemma extract_joined :
  forall qs,
    qs <> [] -> Forall no_backtick qs ->
    extract_queries (join [nl; nl] (map fenced qs))
    = map (fun q => lstrip (nl :: q ++ [nl])) qs.
Proof.
  intros qs Hne H. unfold extract_queries, sql_blocks, re_findall1, pieces.
  rewrite (scan_joined qs [] H).
  destruct qs as [|q l]; [contradiction | reflexivity].
Qed.


Section LoopCases.

Variables World Connection : Type.
Variable read_sql_query : str -> Connection -> World -> (DataFrame + str) * World.

(** One turn of the loop by the statement it works on: the record
    carries the cleaned statement, and the statement goes to the
    database exactly when it is not empty and the validator accepts it. *)
Lemma loop_body_cases :
  forall c (st : LoopState World) i query,
    let statement := clean_sql_query (strip query) in
    let goes := negb (is_empty statement) && fst (validate_sql_query statement) in
    exists rec,
      results (loop_body read_sql_query c st i query) = results st ++ [rec]
      /\ r_query rec = statement
      /\ submitted (loop_body read_sql_query c st i query)
         = submitted st ++ (if goes then [statement] else [])
      /\ (r_status rec = validation_error <-> goes = false)
      /\ (goes = true ->
          world (loop_body read_sql_query c st i query)
          = snd (read_sql_query statement c (world st))
          /\ (r_status rec = success <->
              exists df json,
                fst (read_sql_query statement c (world st)) = inl df
                /\ df_to_json df = inl json)).
Proof.
  intros c st i query statement goes. subst statement goes. unfold loop_body.
  destruct (is_empty (clean_sql_query (strip query))) eqn:E.
  - apply is_empty_true in E. eexists. split; [reflexivity|]. simpl.
    rewrite E, app_nil_r. repeat split; auto; discriminate.
  - destruct (validate_sql_query (clean_sql_query (strip query))) as [ok msg].
    destruct ok; simpl.
    + destruct (read_sql_query (clean_sql_query (strip query)) c (world st))
        as [o w].
      destruct o as [df|e]; [destruct (df_to_json df) eqn:J|];
        (eexists; split; [reflexivity|]; simpl;
         split; [reflexivity|]; split; [reflexivity|];
         split; [split; discriminate|]; intros _; split; [reflexivity|]).
      * split; [intros _; eauto | reflexivity].
      * split; [discriminate|]. intros (df' & json & Hd & Hj).
        inversion Hd; subst. congruence.
      * split; [discriminate|]. intros (df' & json & Hd & Hj). discriminate.
    + eexists. split; [reflexivity|]. simpl. rewrite app_nil_r.
      repeat split; auto; discriminate.
Qed.

End LoopCases.

Lemma strip_incl : forall s c, In c (strip s) -> In c s.
Proof.
  intros s c H. unfold strip, rstrip in H. apply in_rev in H.
  apply lstrip_incl in H. apply in_rev in H. apply lstrip_incl. exact H.
Qed.

Lemma starts_with_backticks :
  forall s, starts_with (lit "```") s = true -> In "`"%char s.
Proof.
  intros [|c s] H; [discriminate|].
  change (chr_eqb "`" c && starts_with (lit "``") s = true) in H.
  apply andb_true_iff in H. destruct H as [H _].
  apply Ascii.eqb_eq in H. left. symmetry. exact H.
Qed.


Section CallerFacts.

Variables World Connection Cursor : Type.
Variable connect_to_sql_server :
  kwargs -> World -> (option Connection * option Cursor) * World.
Variable read_sql_query : str -> Connection -> World -> (DataFrame + str) * World.
Variable close : Connection -> World -> option str * World.

Lemma run_formatted_connected :
  forall (self : DatabaseService Connection Cursor) c formatted w,
    self_connection self = Some c ->
    extract_queries formatted <> [] ->
    run_formatted connect_to_sql_server read_sql_query self formatted w
    = let st := run_loop read_sql_query c (MkLoop w [] []) 0
                  (extract_queries formatted) in
      MkOutcome (inl (results st)) self (world st) (submitted st).
Proof.
  intros self c formatted w C Hq. unfold run_formatted, ensure_connected.
  rewrite C. simpl. rewrite C.
  rewrite (execute_with_queries _ _ _ _ formatted c w Hq). reflexivity.
Qed.


(** [DatabaseService.execute_multiple_sql] on a connected object and
    N >= 1 statements without backticks: N records come back, the k-th
    for the k-th statement stripped and cleaned. *)
Theorem execute_multiple_sql_records :
  forall (self : DatabaseService Connection Cursor) c sql_queries w,
    self_connection self = Some c ->
    sql_queries <> [] ->
    Forall no_backtick sql_queries ->
    exists recs,
      value (execute_multiple_sql connect_to_sql_server read_sql_query
               self sql_queries w) = inl recs
      /\ List.length recs = List.length sql_queries
      /\ forall k query,
           nth_error sql_queries k = Some query ->
           exists rec, nth_error recs k = Some rec
                       /\ r_query rec = clean_sql_query (strip query).
Proof.
  intros self c qs w C Hne Hq. unfold execute_multiple_sql.
  assert (Hf : map (fun query =>
                      if negb (starts_with (lit "```") (strip query))
                      then fenced query else query) qs
               = map fenced qs).
  { apply map_ext_in. intros q Hin.
    rewrite Forall_forall in Hq. specialize (Hq q Hin).
    destruct (starts_with (lit "```") (strip q)) eqn:S; [|reflexivity].
    exfalso. apply Hq. apply strip_incl. apply starts_with_backticks. exact S. }
  rewrite Hf.
  assert (Hx : extract_queries (join [nl; nl] (map fenced qs))
               = map (fun q => lstrip (nl :: q ++ [nl])) qs)
    by (apply extract_joined; assumption).
  rewrite (run_formatted_connected self c _ w C)
    by (rewrite Hx; destruct qs; [contradiction | discriminate]).
  rewrite Hx. cbn [value].
  destruct (run_loop_results World Connection read_sql_query c
              (map (fun q => lstrip (nl :: q ++ [nl])) qs) (MkLoop w [] []) 0)
    as (recs & Hr & Hlen & Hnth).
  exists recs. cbn [results app] in Hr. split; [rewrite Hr; reflexivity|].
  split; [rewrite Hlen; apply length_map|].
  intros k query Hk.
  assert (Hb : nth_error (map (fun q => lstrip (nl :: q ++ [nl])) qs) k
               = Some (lstrip (nl :: query ++ [nl])))
    by (apply (map_nth_error (fun q => lstrip (nl :: q ++ [nl]))); exact Hk).
  destruct (Hnth k _ Hb) as (rec & Hn & Hrec & _).
  exists rec. split; [exact Hn|]. rewrite Hrec, strip_fence_body. reflexivity.
Qed.


Lemma compile_any_block :
  compile (lit "```(.*?)```")
  = Cat (Chr (ALit "`")) (Cat (Chr (ALit "`")) (Cat (Chr (ALit "`"))
      (Cat (Group 1 (Star false ADot))
         (Cat (Chr (ALit "`")) (Cat (Chr (ALit "`")) (Chr (ALit "`"))))))).
Proof. vm_compute. reflexivity. Qed.

(** A text without a backtick has no fenced block. *)
Lemma no_blocks :
  forall s, no_backtick s -> sql_blocks s = [] /\ any_blocks s = [].
Proof.
  intros s H. unfold sql_blocks, any_blocks, re_findall1, pieces.
  rewrite compile_sql_block, compile_any_block.
  rewrite !(scan_plain f_S "`") by (apply no_backtick_lit; [reflexivity | exact H]).
  rewrite hits_plain. auto.
Qed.

(** After a successful connect, every path of [execute_sql_with_pyodbc]
    ends with [connection.close()] on the connection it made: the world
    it leaves is the world left by a close of that connection. *)
Theorem pyodbc_closes_connection :
  forall sql_code server database auth_type username password w c cur w1,
    connect_to_sql_server
      (pyodbc_kwargs server database auth_type username password) w
    = ((Some c, cur), w1) ->
    exists w2,
      run_world (execute_sql_with_pyodbc connect_to_sql_server read_sql_query close
                   sql_code server database auth_type username password w)
      = snd (close c w2).
Proof.
  intros sql_code server database auth_type username password w c cur w1 K.
  unfold execute_sql_with_pyodbc. rewrite K. cbn [fst].
  destruct (list_or (sql_blocks sql_code) (any_blocks sql_code)).
  - destruct (close c w1) as [[e|] w2]; exists w2; reflexivity.
  - eexists. reflexivity.
Qed.

(** [execute_sql_with_pyodbc] runs fenced statements only.  For a text
    without a backtick nothing reaches the database, and what it
    returns is one record: [connection_error], or [format_error] with
    the whole text as its query -- also for a text that is one plain
    SELECT, which [execute_multiple_sql_code] itself would run. *)
Theorem pyodbc_needs_fence :
  forall sql_code server database auth_type username password w,
    no_backtick sql_code ->
    let r := execute_sql_with_pyodbc connect_to_sql_server read_sql_query close
               sql_code server database auth_type username password w in
    run_submitted r = []
    /\ forall recs,
         returned r = inl recs ->
         exists rec,
           recs = [rec]
           /\ (r_status rec = connection_error /\ r_query rec = []
               \/ r_status rec = format_error /\ r_query rec = sql_code).
Proof.
  intros sql_code server database auth_type username password w H r. subst r.
  destruct (no_blocks sql_code H) as [E1 E2].
  unfold execute_sql_with_pyodbc. rewrite E1, E2. cbn [list_or].
  destruct (connect_to_sql_server _ w) as [[oc ocur] w1]. cbn [fst].
  destruct oc as [c|].
  - destruct (close c w1) as [[e|] w2]; cbn; (split; [reflexivity|]);
      intros recs Hr; [discriminate|].
    inversion Hr; subst. eexists. split; [reflexivity|]. right. auto.
  - cbn. split; [reflexivity|]. intros recs Hr. inversion Hr; subst.
    eexists. split; [reflexivity|]. left. auto.
Qed.

End CallerFacts.


Ltac no_tick :=
  unfold no_backtick; simpl; intros F;
  repeat (destruct F as [F|F]; [discriminate|]); exact F.

Lemma execute_multiple_sql_records_witness :
  self_connection connected_service = Some tt
  /\ [lit "SELECT 1"; lit "DROP TABLE t"] <> []
  /\ Forall no_backtick [lit "SELECT 1"; lit "DROP TABLE t"]
  /\ exists recs,
       value (execute_multiple_sql local_server empty_db connected_service
                [lit "SELECT 1"; lit "DROP TABLE t"] tt) = inl recs
       /\ List.length recs = List.length [lit "SELECT 1"; lit "DROP TABLE t"]
       /\ forall k query,
            nth_error [lit "SELECT 1"; lit "DROP TABLE t"] k = Some query ->
            exists rec, nth_error recs k = Some rec
                        /\ r_query rec = clean_sql_query (strip query).
Proof.
  assert (H1 : self_connection connected_service = Some tt) by reflexivity.
  assert (H2 : [lit "SELECT 1"; lit "DROP TABLE t"] <> []) by discriminate.
  assert (H3 : Forall no_backtick [lit "SELECT 1"; lit "DROP TABLE t"])
    by (repeat constructor; no_tick).
  split; [exact H1|]. split; [exact H2|]. split; [exact H3|].
  exact (execute_multiple_sql_records unit unit unit local_server empty_db
           connected_service tt _ tt H1 H2 H3).
Defined.

Lemma pyodbc_closes_connection_witness :
  local_server (pyodbc_kwargs None None None None None) tt = ((Some tt, Some tt), tt)
  /\ exists w2,
       run_world (execute_sql_with_pyodbc local_server empty_db quiet_close
                    two_block_response None None None None None tt)
       = snd (quiet_close tt w2).
Proof.
  assert (H : local_server (pyodbc_kwargs None None None None None) tt
              = ((Some tt, Some tt), tt)) by reflexivity.
  split; [exact H|].
  exact (pyodbc_closes_connection unit unit unit local_server empty_db quiet_close
           two_block_response None None None None None tt tt (Some tt) tt H).
Defined.

Lemma pyodbc_needs_fence_witness :
  no_backtick (lit "SELECT 1")
  /\ let r := execute_sql_with_pyodbc local_server empty_db quiet_close
                (lit "SELECT 1") None None None None None tt in
     run_submitted r = []
     /\ forall recs,
          returned r = inl recs ->
          exists rec,
            recs = [rec]
            /\ (r_status rec = connection_error /\ r_query rec = []
                \/ r_status rec = format_error /\ r_query rec = lit "SELECT 1").
Proof.
  assert (H : no_backtick (lit "SELECT 1")) by no_tick.
  split; [exact H|].
  exact (pyodbc_needs_fence unit unit unit local_server empty_db quiet_close
           (lit "SELECT 1") None None None None None tt H).
Defined.

(** The same plain SELECT given to [execute_multiple_sql_code] is run. *)
Example unfenced_select_is_run :
  submitted (execute_multiple_sql_code no_server empty_db (lit "SELECT 1") (Some tt) tt)
  = [lit "SELECT 1"].
Proof. vm_compute. reflexivity. Qed.

(** ** The cleaner only removes *)

Lemma scan_plain_in :
  forall f r s k b c, In (Plain c) (scan f r k b s) -> In c s.
Proof.
  intros f r. induction s as [|x s IH]; intros k b c H.
  - destruct k; simpl in H; [|contradiction].
    repeat match goal with
           | H : In _ (match ?x with _ => _ end) |- _ => destruct x
           | H : In _ (_ :: _) |- _ => destruct H as [H|H]; [discriminate|]
           | H : In _ [] |- _ => contradiction
           end.
  - destruct k as [|k]; [|right; exact (IH _ _ _ H)].
    simpl in H.
    repeat match goal with
           | H : In _ (match ?x with _ => _ end) |- _ => destruct x
           | H : In (Plain _) (Matched _ :: _) |- _ =>
               destruct H as [H|H]; [discriminate|]
           | H : In (Plain _) (Plain _ :: _) |- _ =>
               destruct H as [H|H]; [inversion H; subst; left; reflexivity|]
           | H : In (Plain _) (scan _ _ _ _ _) |- _ => right; exact (IH _ _ _ H)
           end.
Qed.

Lemma scan_hit_at :
  forall f r s k b h,
    In (Matched h) (scan f r k b s) ->
    exists m b' pre post,
      s = pre ++ post /\ match_here f r m (Cursor b' post) = Some h.
Proof.
  intros f r. induction s as [|x s IH]; intros k b h H.
  - destruct k; simpl in H; [|contradiction].
    destruct (match_here f r false (Cursor b [])) as [h0|] eqn:E0; [|contradiction].
    destruct (offset (h_end h0) - offset (Cursor b [])).
    + destruct (match_here f r true (Cursor b [])) as [h1|] eqn:E1.
      * destruct H as [H|[H|[]]]; inversion H; subst.
        -- exists false, b, [], []. auto.
        -- exists true, b, [], []. auto.
      * destruct H as [H|[]]. inversion H; subst. exists false, b, [], []. auto.
    + destruct H as [H|[]]. inversion H; subst. exists false, b, [], []. auto.
  - assert (Rec : forall k' , In (Matched h) (scan f r k' (x :: b) s) ->
              exists m b' pre post,
                x :: s = pre ++ post /\ match_here f r m (Cursor b' post) = Some h).
    { intros k' Hk. destruct (IH _ _ _ Hk) as (m & b' & pre & post & -> & Hm).
      exists m, b', (x :: pre), post. auto. }
    destruct k as [|k]; [|exact (Rec _ H)].
    simpl in H.
    destruct (match_here f r false (Cursor b (x :: s))) as [h0|] eqn:E0.
    + assert (Here : forall m h', match_here f r m (Cursor b (x :: s)) = Some h' ->
                h' = h ->
                exists m b' pre post,
                  x :: s = pre ++ post /\ match_here f r m (Cursor b' post) = Some h).
      { intros m h' Hm <-. exists m, b, [], (x :: s). auto. }
      destruct (offset (h_end h0) - offset (Cursor b (x :: s))).
      * destruct (match_here f r true (Cursor b (x :: s))) as [h1|] eqn:E1.
        -- destruct H as [H|[H|H]].
           ++ inversion H; subst. exact (Here _ _ E0 eq_refl).
           ++ inversion H; subst. exact (Here _ _ E1 eq_refl).
           ++ destruct (offset (h_end h1) - offset (Cursor b (x :: s))).
              ** destruct H as [H|H]; [discriminate | exact (Rec _ H)].
              ** exact (Rec _ H).
        -- destruct H as [H|[H|H]].
           ++ inversion H; subst. exact (Here _ _ E0 eq_refl).
           ++ discriminate.
           ++ exact (Rec _ H).
      * destruct H as [H|H]; [inversion H; subst; exact (Here _ _ E0 eq_refl)|].
        exact (Rec _ H).
    + destruct H as [H|H]; [discriminate | exact (Rec _ H)].
Qed.

Lemma re_sub_in :
  forall f r repl s c,
    In c (re_sub f r repl s) ->
    In c s \/ (In c repl /\ exists h, In (Matched h) (pieces f r s)).
Proof.
  intros f r repl s c H. unfold re_sub in H. apply in_flat_map in H.
  destruct H as ([x|h] & Hp & Hc).
  - left. destruct Hc as [<-|[]]. exact (scan_plain_in _ _ _ _ _ _ Hp).
  - right. eauto.
Qed.

Lemma erase_in : forall f pattern s c, In c (erase f pattern s) -> In c s.
Proof.
  intros f pattern s c H. unfold erase in H. apply re_sub_in in H.
  destruct H as [H|[[] _]]. exact H.
Qed.

Lemma compile_blank_lines :
  compile (lit "\n\s*\n")
  = Cat (Chr (ALit nl)) (Cat (Star true (ASet false [CSpace])) (Chr (ALit nl))).
Proof. vm_compute. reflexivity. Qed.

Lemma blank_lines_in :
  forall s c, In c (re_sub no_flags (compile (lit "\n\s*\n")) [nl] s) -> In c s.
Proof.
  intros s c H. apply re_sub_in in H. destruct H as [H|[[<-|[]] (h & Hh)]]; [exact H|].
  unfold pieces in Hh. apply scan_hit_at in Hh.
  destruct Hh as (m & b' & pre & post & -> & Hm).
  rewrite compile_blank_lines in Hm. apply in_or_app. right.
  destruct post as [|x post].
  - rewrite first_literal_fails in Hm; [discriminate | exact I].
  - destruct (Ascii.eqb nl x) eqn:E.
    + apply Ascii.eqb_eq in E. left. symmetry. exact E.
    + rewrite first_literal_fails in Hm; [discriminate|]. exact E.
Qed.

Lemma fold_in :
  forall (g : str -> str -> str) pats acc c,
    (forall a p x, In x (g a p) -> In x a) ->
    In c (fold_left g pats acc) -> In c acc.
Proof.
  intros g. induction pats as [|p pats IH]; intros acc c Hg H; simpl in H; [exact H|].
  apply (Hg acc p). exact (IH _ _ Hg H).
Qed.

(** The cleaner writes nothing of its own: every character of what it
    returns is a character of its input. *)
Theorem clean_only_removes :
  forall query c, In c (clean_sql_query query) -> In c query.
Proof.
  intros query c H. unfold clean_sql_query in H.
  destruct (is_empty query); [exact H|].
  apply strip_incl in H.
  apply erase_in in H. apply erase_in in H. apply blank_lines_in in H.
  apply fold_in in H;
    [|intros a p x Hx;
      destruct (negb (found (re_search f_I (compile sql_keyword_pattern) a)));
      [exact (erase_in _ _ _ _ Hx) | exact Hx]].
  apply fold_in in H; [|intros a p x Hx; exact (erase_in _ _ _ _ Hx)].
  do 5 apply erase_in in H. exact H.
Qed.

Lemma clean_only_removes_witness :
  In "S"%char (clean_sql_query (lit "## SQL Query" ++ nl :: lit "SELECT 1"))
  /\ In "S"%char (lit "## SQL Query" ++ nl :: lit "SELECT 1").
Proof.
  assert (H : In "S"%char (clean_sql_query (lit "## SQL Query" ++ nl :: lit "SELECT 1")))
    by (vm_compute; auto).
  split; [exact H|].
  exact (clean_only_removes _ _ H).
Defined.

(** ** White space after normalisation *)

Lemma split_ws_aux_word :
  forall word w s,
    forallb (fun c => negb (is_space c)) word = true ->
    split_ws_aux w (word ++ s) = split_ws_aux (rev word ++ w) s.
Proof.
  induction word as [|c word IH]; intros w s H; [reflexivity|].
  simpl in H. apply andb_true_iff in H. destruct H as [Hc H].
  simpl. destruct (is_space c); [discriminate|].
  rewrite IH by exact H. rewrite <- app_assoc. reflexivity.
Qed.

(** Each word [split] returns is not empty and holds no white space. *)
Lemma split_ws_aux_clean :
  forall s w,
    forallb (fun c => negb (is_space c)) w = true ->
    Forall (fun word => word <> []
                        /\ forallb (fun c => negb (is_space c)) word = true)
           (split_ws_aux w s).
Proof.
  assert (Hrev : forall w, w <> [] ->
                 forallb (fun c => negb (is_space c)) w = true ->
                 rev w <> [] /\ forallb (fun c => negb (is_space c)) (rev w) = true).
  { intros w Hne Hw. split.
    - intros E. apply Hne. rewrite <- (rev_involutive w), E. reflexivity.
    - apply forallb_forall. intros c Hc. apply in_rev in Hc.
      rewrite forallb_forall in Hw. exact (Hw c Hc). }
  induction s as [|c s IH]; intros w Hw; simpl.
  - destruct w as [|x w]; [constructor|].
    constructor; [|constructor]. apply Hrev; [discriminate | exact Hw].
  - destruct (is_space c) eqn:E.
    + destruct w as [|x w]; [apply IH; reflexivity|].
      constructor; [apply Hrev; [discriminate | exact Hw] | apply IH; reflexivity].
    + apply IH. simpl. rewrite E. exact Hw.
Qed.

Lemma split_join :
  forall words,
    Forall (fun word => word <> []
                        /\ forallb (fun c => negb (is_space c)) word = true) words ->
    split_ws (join (lit " ") words) = words.
Proof.
  unfold split_ws. induction words as [|word words IH]; intros H; [reflexivity|].
  inversion H as [|? ? [Hne Hw] Hrest]; subst.
  destruct words as [|word' l].
  - simpl join. rewrite <- (app_nil_r word) at 1.
    rewrite split_ws_aux_word by exact Hw. simpl. rewrite app_nil_r.
    destruct (rev word) eqn:E.
    + exfalso. apply Hne. rewrite <- (rev_involutive word), E. reflexivity.
    + rewrite <- E, rev_involutive. reflexivity.
  - change (join (lit " ") (word :: word' :: l))
      with (word ++ " "%char :: join (lit " ") (word' :: l)).
    rewrite split_ws_aux_word by exact Hw. rewrite app_nil_r.
    change (split_ws_aux (rev word) (" "%char :: join (lit " ") (word' :: l)))
      with (match rev word with
            | [] => split_ws_aux [] (join (lit " ") (word' :: l))
            | _ => rev (rev word) :: split_ws_aux [] (join (lit " ") (word' :: l))
            end).
    destruct (rev word) eqn:E.
    + exfalso. apply Hne. rewrite <- (rev_involutive word), E. reflexivity.
    + rewrite <- E, rev_involutive. f_equal. apply IH. exact Hrest.
Qed.

Lemma join_ends :
  forall words,
    words <> [] ->
    Forall (fun word => word <> []
                        /\ forallb (fun c => negb (is_space c)) word = true) words ->
    (exists c rest, join (lit " ") words = c :: rest /\ is_space c = false)
    /\ (exists front c, join (lit " ") words = front ++ [c] /\ is_space c = false).
Proof.
  induction words as [|word words IH]; intros Hne H; [contradiction|].
  inversion H as [|? ? [Hw Hc] Hrest]; subst.
  assert (Hlast : exists front c, word = front ++ [c] /\ is_space c = false).
  { destruct (exists_last Hw) as (front & c & ->). exists front, c. split; [reflexivity|].
    rewrite forallb_forall in Hc.
    assert (Hi : In c (front ++ [c])) by (apply in_or_app; right; left; reflexivity).
    specialize (Hc c Hi).
    destruct (is_space c); [discriminate | reflexivity]. }
  assert (Hfirst : exists c rest, word = c :: rest /\ is_space c = false).
  { destruct word as [|c rest]; [contradiction|]. exists c, rest. split; [reflexivity|].
    simpl in Hc. destruct (is_space c); [discriminate | reflexivity]. }
  destruct words as [|word' l].
  - simpl join. auto.
  - change (join (lit " ") (word :: word' :: l))
      with (word ++ " "%char :: join (lit " ") (word' :: l)).
    split.
    + destruct Hfirst as (c & rest & -> & Hs). exists c. eexists. split; [reflexivity | exact Hs].
    + destruct (IH (fun E => nil_cons (eq_sym E)) Hrest) as [_ (front & c & E & Hs)].
      rewrite E. exists (word ++ " "%char :: front), c.
      rewrite <- app_assoc. auto.
Qed.

Lemma join_spaces :
  forall words c,
    Forall (fun word => word <> []
                        /\ forallb (fun c => negb (is_space c)) word = true) words ->
    In c (join (lit " ") words) -> is_space c = true -> c = " "%char.
Proof.
  induction words as [|word words IH]; intros c H Hin Hs; [contradiction|].
  inversion H as [|? ? [Hw Hc] Hrest]; subst.
  assert (Hword : In c word -> c = " "%char).
  { intros Hi. rewrite forallb_forall in Hc. specialize (Hc c Hi).
    rewrite Hs in Hc. discriminate. }
  destruct words as [|word' l]; [exact (Hword Hin)|].
  change (join (lit " ") (word :: word' :: l))
    with (word ++ " "%char :: join (lit " ") (word' :: l)) in Hin.
  apply in_app_or in Hin. destruct Hin as [Hin|[<-|Hin]]; [exact (Hword Hin) | reflexivity|].
  exact (IH c Hrest Hin Hs).
Qed.

(** What [_normalize_query] returns is in normal form for white space:
    splitting it into words and joining them with one space gives it
    back.  It has no white space at either end, no two spaces in a row,
    and no white space other than the space. *)
Theorem normalized_is_collapsed :
  forall query,
    join (lit " ") (split_ws (_normalize_query query)) = _normalize_query query
    /\ strip (_normalize_query query) = _normalize_query query
    /\ forall c, In c (_normalize_query query) -> is_space c = true -> c = " "%char.
Proof.
  intros query. unfold _normalize_query.
  set (x := re_sub f_S (compile (lit "/\*.*?\*/")) (lit " ")
              (re_sub no_flags (compile (lit "--.*?(\n|$)")) (lit " ") query)).
  pose proof (split_ws_aux_clean x [] eq_refl) as W. fold (split_ws x) in W.
  split; [rewrite (split_join _ W); reflexivity|].
  generalize (split_ws x) W. clear x W. intros words W. split.
  - destruct words as [|word l] eqn:E; [reflexivity|]. rewrite <- E in *.
    destruct (join_ends words) as [(c & rest & E1 & H1) (front & d & E2 & H2)];
      [rewrite E; discriminate | exact W |].
    unfold strip.
    assert (L : lstrip (join (lit " ") words) = join (lit " ") words)
      by (rewrite E1; simpl; rewrite H1; reflexivity).
    rewrite L, E2. unfold rstrip. rewrite rev_app_distr. simpl. rewrite H2.
    simpl. rewrite rev_involutive. reflexivity.
  - intros c. apply join_spaces. exact W.
Qed.

(** ** The validator and the blocked keywords *)









(** ** The security check and the stored procedures *)





(** ** The validator and the executor on edges *)

(** The validator rejects the empty text and every text of white space
    only, with the message "Only SELECT statements are allowed"; so does
    [DatabaseService.validate_sql]. *)
Theorem blank_statement_invalid :
  forall query,
    forallb is_space query = true ->
    validate_sql_query query = (false, lit "Only SELECT statements are allowed")
    /\ validate_sql query = false.
Proof.
  intros query H.
  assert (E : validate_sql_query query
              = (false, lit "Only SELECT statements are allowed")).
  { unfold validate_sql_query.
    change (normalized_of query) with (_normalize_query query).
    rewrite (normalize_blank query H). vm_compute. reflexivity. }
  split; [exact E|]. unfold validate_sql. rewrite E. reflexivity.
Qed.

Lemma blank_statement_invalid_witness :
  forallb is_space [nl; " "%char] = true
  /\ validate_sql_query [nl; " "%char]
     = (false, lit "Only SELECT statements are allowed")
  /\ validate_sql [nl; " "%char] = false.
Proof.
  split; [reflexivity|].
  apply (blank_statement_invalid [nl; " "%char]). reflexivity.
Defined.

Lemma valid_shape :
  forall q, fst (validate_sql_query q) = true ->
            select_shape (normalized_of q) \/ cte_shape (normalized_of q).
Proof.
  intros q H. unfold validate_sql_query in H.
  pose proof (normalized_no_leading_space q) as Hn.
  destruct (shape_error (normalized_of q)) as [msg|] eqn:E; [discriminate|].
  clear H. unfold shape_error in E.
  destruct (is_cte (normalized_of q)) eqn:C.
  - right. unfold is_cte in C. apply re_match_shape in C. destruct C as (p & M).
    exact (cte_match_shape _ p Hn M).
  - destruct (is_select (normalized_of q)) eqn:S; [|discriminate].
    left. unfold is_select in S. apply re_match_shape in S. destruct S as (p & M).
    exact (select_match_shape _ p Hn M).
Qed.

Section Handed.

Variables World Connection : Type.
Variable connect_to_sql_server : World -> option Connection * World.
Variable read_sql_query : str -> Connection -> World -> (DataFrame + str) * World.

Lemma run_loop_handed :
  forall c queries (st : LoopState World) i q,
    In q (submitted (run_loop read_sql_query c st i queries)) ->
    In q (submitted st)
    \/ exists block, In block queries /\ q = clean_sql_query (strip block)
                     /\ q <> [] /\ fst (validate_sql_query q) = true.
Proof.
  intros c. induction queries as [|query rest IH]; intros st i q H; simpl in H.
  - auto.
  - apply IH in H. destruct H as [H|(block & Hb & Hq)].
    + destruct (loop_body_cases World Connection read_sql_query c st i query)
        as (rec & _ & _ & Hs & _).
      rewrite Hs in H. apply in_app_or in H. destruct H as [H|H]; [auto|].
      right. exists query. split; [left; reflexivity|].
      destruct (negb (is_empty (clean_sql_query (strip query)))
                && fst (validate_sql_query (clean_sql_query (strip query)))) eqn:G;
        [|contradiction].
      destruct H as [<-|[]]. apply andb_true_iff in G. destruct G as [G1 G2].
      split; [reflexivity|]. split; [|exact G2].
      intros N. rewrite N in G1. discriminate.
    + right. exists block. split; [right; exact Hb | exact Hq].
Qed.

(** What reaches the database.  Every statement handed to
    [pd.read_sql_query] is one of the statements found in the text,
    stripped and cleaned; it is not empty; and once its comments are
    removed and its white space is collapsed it begins with the word
    SELECT or with [WITH ... AS (]. *)
Theorem handed_statements :
  forall sql_code connection w q,
    In q (submitted (execute_multiple_sql_code connect_to_sql_server
                       read_sql_query sql_code connection w)) ->
    (exists block, In block (extract_queries sql_code)
                   /\ q = clean_sql_query (strip block))
    /\ q <> []
    /\ (select_shape (normalized_of q) \/ cte_shape (normalized_of q)).
Proof.
  intros sql_code connection w q. unfold execute_multiple_sql_code.
  destruct (match connection with
            | Some c => (Some c, w)
            | None => connect_to_sql_server w
            end) as [[c|] w']; simpl; [|contradiction].
  destruct (extract_queries sql_code) as [|q0 qs] eqn:E; simpl; [contradiction|].
  intros H.
  change (In q (submitted (run_loop read_sql_query c (MkLoop w' [] []) 0 (q0 :: qs)))) in H.
  apply run_loop_handed in H. destruct H as [[]|(block & Hb & Hq & Hne & Hv)].
  split; [exists block; auto|]. split; [exact Hne|]. exact (valid_shape q Hv).
Qed.

End Handed.

Lemma handed_statements_witness :
  In (lit "SELECT 1")
     (submitted (execute_multiple_sql_code no_server empty_db
                   two_block_response (Some tt) tt))
  /\ (exists block, In block (extract_queries two_block_response)
                    /\ lit "SELECT 1" = clean_sql_query (strip block))
  /\ lit "SELECT 1" <> []
  /\ (select_shape (normalized_of (lit "SELECT 1"))
      \/ cte_shape (normalized_of (lit "SELECT 1"))).
Proof.
  assert (H : In (lit "SELECT 1")
                (submitted (execute_multiple_sql_code no_server empty_db
                              two_block_response (Some tt) tt)))
    by (vm_compute; auto).
  split; [exact H|].
  exact (handed_statements unit unit no_server empty_db
           two_block_response (Some tt) tt _ H).
Defined.
